(** * TraverseTracks: the track/segment traversal engine of OpenMOC

    A shallow embedding of [src/TraverseTracks.cpp] and the properties of
    its two traversal entry points, [loopOverTracks] and
    [loopOverTracksByParallelGroup].

    The C++ code is imperative: it walks arrays owned by a TrackGenerator,
    calls two virtual methods of a MOCKernel and one virtual method of the
    engine itself.  The embedding threads an explicit machine state through
    every call and records each virtual call in a trace, so that "which
    calls happen, with which arguments, in which order" becomes a statement
    about a list of events.  Undefined behaviour of the C++ program (a null
    or dangling pointer dereferenced, an array read out of bounds, a signed
    overflow) is an explicit fault.

    The two inner loops are OpenMP worksharing loops ([#pragma omp for]).
    The order in which their iterations run is not the program's to decide:
    it is a parameter of the model, the schedule, and every theorem about
    the engine holds for every schedule unless it says otherwise. *)

From Stdlib Require Import QArith Qcanon.
From stdpp Require Import base numbers option list gmap.

Local Open Scope Z_scope.

(** ** Faults and results *)

Inductive fault : Type :=
  | NullKernel      (* a NULL MOCKernel* was dereferenced *)
  | DanglingTrack   (* a Track* that points at no Track was dereferenced *)
  | OutOfBounds     (* an array was indexed outside its extent *)
  | IntOverflow.    (* an int addition left the range of int *)

Inductive result (A : Type) : Type :=
  | Ok (a : A)
  | Err (f : fault).
Arguments Ok {A} a.
Arguments Err {A} f.

Global Instance result_ret : MRet result := λ A a, Ok a.
Global Instance result_bind : MBind result := λ A B f r,
  match r with
  | Ok a => f a
  | Err e => Err e
  end.

(** ** C++ [int] *)

Definition INT_MAX : Z := 2147483647.
Definition INT_MIN : Z := -2147483648.

Definition in_int_range (z : Z) : bool := (INT_MIN <=? z) && (z <=? INT_MAX).

(** [x + y] on [int]: signed overflow is undefined behaviour. *)
Definition int_add (x y : Z) : result Z :=
  if in_int_range (x + y) then Ok (x + y) else Err IntOverflow.

(** [arr[i]] on a C array with the extent of [arr]. *)
Definition index {A} (arr : list A) (i : Z) : result A :=
  if i <? 0 then Err OutOfBounds
  else match arr !! Z.to_nat i with
       | Some x => Ok x
       | None => Err OutOfBounds
       end.

(** [for (int i = lo; i < hi; i++) body], for a bound [hi] that the body
    does not change; [acc] is everything the body reads and writes. *)
Fixpoint for_each {I A} (body : I → A → result A) (l : list I) (acc : A)
  : result A :=
  match l with
  | [] => Ok acc
  | i :: l' => acc' ← body i acc; for_each body l' acc'
  end.

Definition for_range {A} (lo hi : Z) (body : Z → A → result A) (acc : A)
  : result A :=
  for_each body (seqZ lo (hi - lo)) acc.

(** ** OpenMP worksharing loops *)

(** The [schedule] clause of a worksharing loop: none, or
    [schedule(guided)]. *)
Inductive schedule_clause : Type :=
  | no_clause
  | guided.

(** What the OpenMP runtime decides in one call of the engine.  A
    worksharing loop shares its iterations out among the threads of the
    team, and the threads run their shares side by side, so that the
    iterations of the loop run in an order that is none of the program's
    making.  [share_out c n l] is that order for the iterations [l] of the
    [n]-th worksharing loop the call comes to, whose clause is [c]: some
    arrangement of [l], each iteration once.  The iteration is the unit:
    the body of one iteration is run by one thread from beginning to end,
    and the model does not interleave the calls of two bodies. *)
Record schedule : Type := mk_schedule {
  share_out : schedule_clause → Z → list Z → list Z;
  share_out_Permutation : ∀ c n l, share_out c n l ≡ₚ l;
}.

(** [#pragma omp for] on [for (int i = lo; i < hi; i++) body], the [n]-th
    worksharing loop of the call.  The iterations run in the order of the
    schedule.  The pragmas of the engine have no [nowait] clause, so the
    loop ends in a barrier: no thread goes on before every iteration is
    over, and what follows the loop starts from the state the last
    iteration leaves. *)
Definition omp_for {A} (omp : schedule) (c : schedule_clause) (n : Z)
    (lo hi : Z) (body : Z → A → result A) (acc : A) : result A :=
  for_each body (share_out omp c n (seqZ lo (hi - lo))) acc.

(** A team of one thread: the iterations run in index order. *)
Definition one_thread : schedule :=
  {| share_out := λ _ _ l, l;
     share_out_Permutation := λ _ _ l, Permutation_refl l |}.

(** A schedule under which the last iteration of every worksharing loop is
    the first to run, and the first the last. *)
Definition back_to_front : schedule :=
  {| share_out := λ _ _ l, reverse l;
     share_out_Permutation := λ _ _ l, reverse_Permutation l |}.

(** ** Data model *)

(** FP_PRECISION is a floating-point type; the engine only copies segment
    lengths, so any carrier serves. *)
Definition FP_PRECISION : Type := Qc.

(** Addresses of Material and Track objects. *)
Definition MaterialPtr : Type := Z.
Definition TrackPtr : Type := Z.

Record segment : Type := mk_segment {
  _length : FP_PRECISION;
  _material : MaterialPtr;
  _region_id : Z;
  _cmfd_surface_fwd : Z;
  _cmfd_surface_bwd : Z;
}.

(** Modelled from the spec: class Track is declared in Track.h, which is
    not part of the sources.  A Track owns an ordered sequence of segments,
    in physical order along the ray; the engine uses [getSegments],
    [getNumSegments] and [getSegment] only. *)
Record Track : Type := mk_Track {
  _segments : list segment;
}.

Definition getSegments (T : Track) : list segment := _segments T.
Definition getNumSegments (T : Track) : Z := Z.of_nat (length (_segments T)).
Definition getSegment (T : Track) (s : Z) : result segment :=
  index (_segments T) s.

(** Modelled from the spec: enum segmentationType is declared in a header
    that is not part of the sources.  One variant, explicit 2D, is defined
    today; [OTHER_FORMATION v] is any other value [v] the cached mode may
    hold. *)
Inductive segmentationType : Type :=
  | EXPLICIT_2D
  | OTHER_FORMATION (v : Z).

(** Modelled from the spec: class TrackGenerator (the Track Store) is
    declared in TrackGenerator.h, which is not part of the sources.  These
    are the eight getters the engine calls.  [getTracks] is the array
    indexed by azimuthal angle and position, given by the addresses
    [&tracks_2D[a][i]]; [getTracksByParallelGroup] is the flat array of
    Track pointers. *)
Record TrackGenerator : Type := mk_TrackGenerator {
  getSegmentFormation : segmentationType;
  getTracks : list (list TrackPtr);
  getNumAzim : Z;
  getNumX : Z → Z;
  getNumY : Z → Z;
  getTracksByParallelGroup : list TrackPtr;
  getNumParallelTrackGroups : Z;
  getNumTracksByParallelGroup : Z → Z;
}.

(** Every call the engine makes through a virtual method. *)
Inductive event : Type :=
  | EvNewTrack (track : TrackPtr)
  | EvExecute (length : FP_PRECISION) (material : MaterialPtr)
      (region_id cmfd_surface_fwd cmfd_surface_bwd : Z)
  | EvOnTrack (track : TrackPtr) (segments : list segment).

Definition is_EvOnTrack (e : event) : bool :=
  match e with EvOnTrack _ _ => true | _ => false end.
Definition is_EvNewTrack (e : event) : bool :=
  match e with EvNewTrack _ => true | _ => false end.
Definition is_EvExecute (e : event) : bool :=
  match e with EvExecute _ _ _ _ _ => true | _ => false end.
Definition is_kernel_event (e : event) : bool :=
  is_EvNewTrack e || is_EvExecute e.

Definition count_events (p : event → bool) (tr : list event) : nat :=
  length (filter (λ e, p e = true) tr).

(** The Tracks handed to [onTrack], and those handed to [newTrack], in the
    order of the calls. *)
Definition hook_calls (tr : list event) : list TrackPtr :=
  tr ≫= λ e, match e with EvOnTrack t _ => [t] | _ => [] end.
Definition newTrack_calls (tr : list event) : list TrackPtr :=
  tr ≫= λ e, match e with EvNewTrack t => [t] | _ => [] end.

(** The (track, segment) pairs a trace visits through the hook: each
    segment of the sequence handed to [onTrack], with the Track. *)
Definition hook_visits (tr : list event) : list (TrackPtr * segment) :=
  tr ≫= λ e, match e with
             | EvOnTrack t segs => pair t <$> segs
             | _ => []
             end.

(** The (track, segment) pairs a trace visits through the kernel: each
    [execute] call, with the Track of the last [newTrack] call before it
    ([cur], when there is one). *)
Fixpoint kernel_visits (cur : option TrackPtr) (tr : list event)
  : list (TrackPtr * segment) :=
  match tr with
  | [] => []
  | EvNewTrack t :: tr' => kernel_visits (Some t) tr'
  | EvExecute l m r f b :: tr' =>
      match cur with
      | Some t => [(t, mk_segment l m r f b)]
      | None => []
      end ++ kernel_visits cur tr'
  | EvOnTrack _ _ :: tr' => kernel_visits cur tr'
  end.

(** The five arguments of one [execute] call. *)
Definition EvExecute_of (seg : segment) : event :=
  EvExecute (_length seg) (_material seg) (_region_id seg)
    (_cmfd_surface_fwd seg) (_cmfd_surface_bwd seg).

Section Engine.

(** [K] is the private state of a MOCKernel object, [H] the private state
    of the solver stage that overrides [onTrack]; [omp] is the schedule of
    the OpenMP runtime. *)
Context {K H : Type} (omp : schedule).

(** Modelled from the spec: class MOCKernel is declared in MOCKernel.h,
    which is not part of the sources.  [newTrack] receives the Track, may
    update the kernel's own state and may regenerate that Track's segment
    sequence in place; [execute] receives the five fields of one segment by
    value and updates the kernel's own state. *)
Record MOCKernel : Type := mk_MOCKernel {
  newTrack : TrackPtr → Track → K → K * Track;
  execute : FP_PRECISION → MaterialPtr → Z → Z → Z → K → K;
}.

(** The machine state: the two private states, the Track objects in
    memory, and the trace of virtual calls made so far. *)
Record state : Type := mk_state {
  kernel_state : K;
  hook_state : H;
  memory : gmap Z Track;
  trace : list event;
}.

(** The engine object.  [onTrack] is its virtual method. *)
Record TraverseTracks : Type := mk_TraverseTracks {
  _track_generator : TrackGenerator;
  _segment_formation : segmentationType;
  onTrack : TrackPtr → list segment → H → H;
}.

(** TraverseTracks::TraverseTracks *)
Definition new_TraverseTracks (track_generator : TrackGenerator)
    (onTrack : TrackPtr → list segment → H → H) : TraverseTracks :=
  {| _track_generator := track_generator;
     _segment_formation := getSegmentFormation track_generator;
     onTrack := onTrack |}.

(** TraverseTracks::onTrack, the default implementation. *)
Definition onTrack_default : TrackPtr → list segment → H → H :=
  λ _ _ h, h.

(** [*track] *)
Definition deref_track (track : TrackPtr) (σ : state) : result Track :=
  match memory σ !! track with
  | Some T => Ok T
  | None => Err DanglingTrack
  end.

(** [*kernel] *)
Definition deref_kernel (kernel : option MOCKernel) : result MOCKernel :=
  match kernel with
  | Some k => Ok k
  | None => Err NullKernel
  end.

(** [kernel != NULL] *)
Definition non_null (kernel : option MOCKernel) : bool :=
  match kernel with Some _ => true | None => false end.

(** [kernel->newTrack(track)] *)
Definition call_newTrack (k : MOCKernel) (track : TrackPtr) (σ : state)
  : result state :=
  T ← deref_track track σ;
  let '(ks, T') := newTrack k track T (kernel_state σ) in
  Ok {| kernel_state := ks;
        hook_state := hook_state σ;
        memory := <[track := T']> (memory σ);
        trace := trace σ ++ [EvNewTrack track] |}.

(** [kernel->execute(seg->_length, ..., seg->_cmfd_surface_bwd)] *)
Definition call_execute (k : MOCKernel) (seg : segment) (σ : state) : state :=
  {| kernel_state :=
       execute k (_length seg) (_material seg) (_region_id seg)
         (_cmfd_surface_fwd seg) (_cmfd_surface_bwd seg) (kernel_state σ);
     hook_state := hook_state σ;
     memory := memory σ;
     trace := trace σ ++ [EvExecute_of seg] |}.

(** [onTrack(track, segments)] *)
Definition call_onTrack (this : TraverseTracks) (track : TrackPtr)
    (segments : list segment) (σ : state) : state :=
  {| kernel_state := kernel_state σ;
     hook_state := onTrack this track segments (hook_state σ);
     memory := memory σ;
     trace := trace σ ++ [EvOnTrack track segments] |}.

(** TraverseTracks::traceSegmentsExplicit.  The source reads
    [track->getNumSegments()] before every iteration; [call_execute] leaves
    [memory] as it is, so the bound is the one read first. *)
Definition traceSegmentsExplicit (track : TrackPtr)
    (kernel : option MOCKernel) (σ : state) : result state :=
  T0 ← deref_track track σ;
  for_range 0 (getNumSegments T0) (λ s σ,
    T ← deref_track track σ;
    seg ← getSegment T s;
    k ← deref_kernel kernel;
    Ok (call_execute k seg σ)) σ.

(** TraverseTracks::loopOverTracks2D *)
Definition loopOverTracks2D (this : TraverseTracks)
    (kernel : option MOCKernel) (σ : state) : result state :=
  let tracks_2D := getTracks (_track_generator this) in
  let num_azim := getNumAzim (_track_generator this) in
  for_range 0 (num_azim `quot` 2) (λ a σ,
    num_xy ← int_add (getNumX (_track_generator this) a)
                     (getNumY (_track_generator this) a);
    omp_for omp no_clause a 0 num_xy (λ i σ,
      row ← index tracks_2D a;
      track_2D ← index row i;
      σ ← (if non_null kernel then
             k ← deref_kernel kernel;
             σ ← call_newTrack k track_2D σ;
             traceSegmentsExplicit track_2D kernel σ
           else Ok σ);
      T ← deref_track track_2D σ;
      let segments := getSegments T in
      Ok (call_onTrack this track_2D segments σ)) σ) σ.

(** TraverseTracks::loopOverTracksByParallelGroup2D.  The accumulator of
    the outer loop carries the local [max_track] with the machine state. *)
Definition loopOverTracksByParallelGroup2D (this : TraverseTracks)
    (kernel : option MOCKernel) (σ : state) : result state :=
  let max_track := 0 in
  let tracks := getTracksByParallelGroup (_track_generator this) in
  let num_track_groups := getNumParallelTrackGroups (_track_generator this) in
  r ← for_range 0 num_track_groups (λ i '(max_track, σ),
    let min_track := max_track in
    max_track ← int_add max_track
      (getNumTracksByParallelGroup (_track_generator this) i);
    σ ← omp_for omp guided i min_track max_track (λ track_id σ,
      track ← index tracks track_id;
      σ ← (if non_null kernel then
             k ← deref_kernel kernel;
             σ ← call_newTrack k track σ;
             traceSegmentsExplicit track kernel σ
           else Ok σ);
      T ← deref_track track σ;
      let segments := getSegments T in
      Ok (call_onTrack this track segments σ)) σ;
    Ok (max_track, σ)) (max_track, σ);
  Ok r.2.

(** TraverseTracks::loopOverTracks *)
Definition loopOverTracks (this : TraverseTracks)
    (kernel : option MOCKernel) (σ : state) : result state :=
  match _segment_formation this with
  | EXPLICIT_2D => loopOverTracks2D this kernel σ
  | _ => Ok σ
  end.

(** TraverseTracks::loopOverTracksByParallelGroup *)
Definition loopOverTracksByParallelGroup (this : TraverseTracks)
    (kernel : option MOCKernel) (σ : state) : result state :=
  match _segment_formation this with
  | EXPLICIT_2D => loopOverTracksByParallelGroup2D this kernel σ
  | _ => Ok σ
  end.

(** What both loops do with one Track pointer: the body of the inner loop
    of [loopOverTracks2D] and of [loopOverTracksByParallelGroup2D] after
    the pointer is read from the array. *)
Definition visit (this : TraverseTracks) (kernel : option MOCKernel)
    (track : TrackPtr) (σ : state) : result state :=
  σ ← (if non_null kernel then
         k ← deref_kernel kernel;
         σ ← call_newTrack k track σ;
         traceSegmentsExplicit track kernel σ
       else Ok σ);
  T ← deref_track track σ;
  let segments := getSegments T in
  Ok (call_onTrack this track segments σ).

(** The two public entry points. *)
Inductive entry_point : Type :=
  | TraverseAll
  | TraverseByParallelGroup.

Definition traverse (e : entry_point) (this : TraverseTracks)
    (kernel : option MOCKernel) (σ : state) : result state :=
  match e with
  | TraverseAll => loopOverTracks this kernel σ
  | TraverseByParallelGroup => loopOverTracksByParallelGroup this kernel σ
  end.

End Engine.

Arguments MOCKernel : clear implicits.
Arguments state : clear implicits.
Arguments TraverseTracks : clear implicits.

(** ** The order of a traversal, as lists of Track pointers *)

(** The positions [0 .. getNumX(a) + getNumY(a) - 1] of azimuthal angle
    [a], in the order in which the schedule has them run. *)
Definition positions_of_azim (omp : schedule) (tg : TrackGenerator) (a : Z)
  : list Z :=
  share_out omp no_clause a (seqZ 0 (getNumX tg a + getNumY tg a)).

(** The Tracks of azimuthal angle [a], over the positions
    [0 .. getNumX(a) + getNumY(a) - 1] in the order of the schedule. *)
Definition tracks_of_azim (omp : schedule) (tg : TrackGenerator) (a : Z)
  : result (list TrackPtr) :=
  num_xy ← int_add (getNumX tg a) (getNumY tg a);
  mapM (λ i, row ← index (getTracks tg) a; index row i)
    (share_out omp no_clause a (seqZ 0 num_xy)).

(** The Tracks of the first half of the azimuthal angles, angle by angle
    ascending over [0 .. num_azim/2 - 1]. *)
Definition tracks_by_azim (omp : schedule) (tg : TrackGenerator)
  : result (list (list TrackPtr)) :=
  mapM (tracks_of_azim omp tg) (seqZ 0 (getNumAzim tg `quot` 2)).

(** The index range [min_track, max_track) of each parallel group: group
    [i] starts where group [i - 1] ends and holds
    [getNumTracksByParallelGroup(i)] indices. *)
Fixpoint group_ranges (tg : TrackGenerator) (groups : list Z) (max_track : Z)
  : result (list (Z * Z * Z)) :=
  match groups with
  | [] => Ok []
  | i :: groups' =>
      let min_track := max_track in
      max_track ← int_add max_track (getNumTracksByParallelGroup tg i);
      rest ← group_ranges tg groups' max_track;
      Ok ((i, min_track, max_track) :: rest)
  end.

(** The Tracks of the parallel group [r = (i, min_track, max_track)], over
    the indices [min_track .. max_track - 1] in the order of the
    schedule. *)
Definition tracks_of_range (omp : schedule) (tg : TrackGenerator)
    (r : Z * Z * Z) : result (list TrackPtr) :=
  mapM (index (getTracksByParallelGroup tg))
    (share_out omp guided r.1.1 (seqZ r.1.2 (r.2 - r.1.2))).

(** The Tracks of the parallel groups, group by group ascending. *)
Definition tracks_by_group (omp : schedule) (tg : TrackGenerator)
  : result (list (list TrackPtr)) :=
  ranges ← group_ranges tg (seqZ 0 (getNumParallelTrackGroups tg)) 0;
  mapM (tracks_of_range omp tg) ranges.

(** The order in which an entry point has the Tracks of the Track Store
    run, under a schedule. *)
Definition traversal_order (omp : schedule) (e : entry_point)
    (tg : TrackGenerator) : result (list (list TrackPtr)) :=
  match e with
  | TraverseAll => tracks_by_azim omp tg
  | TraverseByParallelGroup => tracks_by_group omp tg
  end.

(** Every Track pointer of [ts] points at a Track in [m]. *)
Definition allocated (m : gmap Z Track) (ts : list TrackPtr) : bool :=
  forallb (λ t, bool_decide (is_Some (m !! t))) ts.

(** ** What a traversal amounts to *)

Section Outcomes.

Context {K H : Type}.
Implicit Types (this : TraverseTracks H) (kernel : option (MOCKernel K)).
Implicit Types (σ : state K H) (track t : TrackPtr) (T : Track).

(** The kernel state after [execute] has consumed [segs] in order. *)
Definition consume (k : MOCKernel K) (segs : list segment) (ks : K) : K :=
  foldl (λ ks seg, execute k (_length seg) (_material seg) (_region_id seg)
                     (_cmfd_surface_fwd seg) (_cmfd_surface_bwd seg) ks)
    ks segs.

(** The outcome of [visit] on a Track [T]: what the kernel makes of the
    Track, the events of the kernel, and the state after the hook. *)
Definition kernel_step kernel track T (ks : K) : K * Track * list event :=
  match kernel with
  | Some k =>
      let '(ks1, T') := newTrack k track T ks in
      (consume k (_segments T') ks1, T',
       EvNewTrack track :: (EvExecute_of <$> _segments T'))
  | None => (ks, T, [])
  end.

Definition visit_result this kernel track T σ : state K H :=
  let '(ks, T', evs) := kernel_step kernel track T (kernel_state σ) in
  {| kernel_state := ks;
     hook_state := onTrack this track (_segments T') (hook_state σ);
     memory := <[track := T']> (memory σ);
     trace := trace σ ++ evs ++ [EvOnTrack track (_segments T')] |}.

(** The Track at [track], for a pointer that points at one. *)
Definition the_track (m : gmap Z Track) track : Track :=
  default (mk_Track []) (m !! track).

Definition visit_events kernel track T (ks : K) : list event :=
  let '(_, T', evs) := kernel_step kernel track T ks in
  evs ++ [EvOnTrack track (_segments T')].

Fixpoint visits_result this kernel (ts : list TrackPtr) σ : state K H :=
  match ts with
  | [] => σ
  | t :: ts' =>
      visits_result this kernel ts'
        (visit_result this kernel t (the_track (memory σ) t) σ)
  end.

Fixpoint visits_events this kernel (ts : list TrackPtr) σ : list event :=
  match ts with
  | [] => []
  | t :: ts' =>
      visit_events kernel t (the_track (memory σ) t) (kernel_state σ) ++
      visits_events this kernel ts'
        (visit_result this kernel t (the_track (memory σ) t) σ)
  end.

(** The outcome of a traversal with an absent kernel over the Tracks [ts]:
    one hook call per Track, nothing from a kernel, no Track regenerated. *)
Definition hook_only this (ts : list TrackPtr) σ σ' : Prop :=
  trace σ' = trace σ ++
    ((λ t, EvOnTrack t (_segments (the_track (memory σ) t))) <$> ts) ∧
  memory σ' = memory σ ∧
  kernel_state σ' = kernel_state σ ∧
  hook_state σ' =
    foldl (λ h t, onTrack this t (_segments (the_track (memory σ) t)) h)
      (hook_state σ) ts.

(** The hook state after the hook calls of [tr], in order. *)
Definition replay_hook this (tr : list event) (h : H) : H :=
  foldl (λ h e, match e with
                | EvOnTrack t segs => onTrack this t segs h
                | _ => h
                end) h tr.

(** What the engine owes the one Track at [t], from the state [σ] it comes
    to the Track in to the state [σ1] it leaves it in.  [T] is the Track in
    memory, [T'] the Track as the kernel leaves it.  With a kernel [k],
    [newTrack] is called once on [T], then [execute] once per segment of
    [T'] in index order; without one nothing is called and [T'] is [T].
    Only then the hook is called, once, with [t] and the segments of [T'],
    which are those the Track at [t] has in memory by then. *)
Definition track_done this kernel t σ σ1 : Prop :=
  ∃ T T' ks kev,
    memory σ !! t = Some T ∧
    match kernel with
    | Some k =>
        ∃ ks1, newTrack k t T (kernel_state σ) = (ks1, T') ∧
               ks = consume k (_segments T') ks1 ∧
               kev = EvNewTrack t :: (EvExecute_of <$> _segments T')
    | None => T' = T ∧ ks = kernel_state σ ∧ kev = []
    end ∧
    kernel_state σ1 = ks ∧
    memory σ1 = <[t := T']> (memory σ) ∧
    hook_state σ1 = onTrack this t (_segments T') (hook_state σ) ∧
    trace σ1 = trace σ ++ kev ++ [EvOnTrack t (_segments T')].

(** The same for the Tracks [ts], one after the other. *)
Inductive tracks_done this kernel
  : list TrackPtr → state K H → state K H → Prop :=
  | tracks_done_nil σ :
      tracks_done this kernel [] σ σ
  | tracks_done_cons t ts σ σ1 σ2 :
      track_done this kernel t σ σ1 →
      tracks_done this kernel ts σ1 σ2 →
      tracks_done this kernel (t :: ts) σ σ2.

(** The parallel groups [gs] run one after another: the Tracks of a group
    are all done, their segments consumed and their hook calls made, which
    gives the block [b] of events, before the first Track of the next
    group is begun. *)
Inductive groups_done this kernel
  : list (list TrackPtr) → list (list event) → state K H → state K H → Prop :=
  | groups_done_nil σ :
      groups_done this kernel [] [] σ σ
  | groups_done_cons g gs b bs σ σ1 σ2 :
      tracks_done this kernel g σ σ1 →
      trace σ1 = trace σ ++ b →
      groups_done this kernel gs bs σ1 σ2 →
      groups_done this kernel (g :: gs) (b :: bs) σ σ2.

Fixpoint group_blocks this kernel (gs : list (list TrackPtr)) σ
  : list (list event) :=
  match gs with
  | [] => []
  | g :: gs' =>
      visits_events this kernel g σ ::
      group_blocks this kernel gs' (visits_result this kernel g σ)
  end.

(** The kernel regenerates the segments of a Track from the Track alone,
    whatever its own state; an absent kernel regenerates nothing. *)
Definition regenerates_by_track_alone (kernel : option (MOCKernel K)) : Prop :=
  match kernel with
  | Some k => ∀ t T ks ks', (newTrack k t T ks).2 = (newTrack k t T ks').2
  | None => True
  end.

Definition regenerated kernel (ks0 : K) t T : Track :=
  (kernel_step kernel t T ks0).1.2.

Fixpoint pairs_seen kernel (ks0 : K) (ts : list TrackPtr) (m : gmap Z Track)
  : list (TrackPtr * segment) :=
  match ts with
  | [] => []
  | t :: ts' =>
      let T' := regenerated kernel ks0 t (the_track m t) in
      (pair t <$> _segments T') ++ pairs_seen kernel ks0 ts' (<[t := T']> m)
  end.

Fixpoint memory_after kernel (ks0 : K) (ts : list TrackPtr) (m : gmap Z Track)
  : gmap Z Track :=
  match ts with
  | [] => m
  | t :: ts' =>
      memory_after kernel ks0 ts'
        (<[t := regenerated kernel ks0 t (the_track m t)]> m)
  end.

End Outcomes.

(** ** Hooks, kernels and Track Stores to run the engine on *)

(** A hook that counts its calls. *)
Definition counting_hook : TrackPtr → list segment → nat → nat :=
  λ _ _ n, S n.

(** A kernel that does nothing. *)
Definition noop_kernel : MOCKernel unit :=
  {| newTrack := λ _ T ks, (ks, T);
     execute := λ _ _ _ _ _ ks, ks |}.

(** A kernel that counts the segments it consumes. *)
Definition tally_kernel : MOCKernel nat :=
  {| newTrack := λ _ T ks, (ks, T);
     execute := λ _ _ _ _ _ ks, S ks |}.

(** A kernel that regenerates every Track with its segments reversed, and
    counts the Tracks. *)
Definition reversing_kernel : MOCKernel nat :=
  {| newTrack := λ _ T ks, (S ks, mk_Track (reverse (_segments T)));
     execute := λ _ _ _ _ _ ks, ks |}.

(** A kernel that regenerates the first Track it is shown with no segment
    at all, and leaves the later ones as they are. *)
Definition first_clears_kernel : MOCKernel bool :=
  {| newTrack := λ _ T (seen : bool),
       if seen then (true, T) else (true, mk_Track []);
     execute := λ _ _ _ _ _ seen, seen |}.

Definition seg_a : segment := mk_segment (Q2Qc (1 # 2)) 100 0 (-1) (-1).
Definition seg_b : segment := mk_segment (Q2Qc (3 # 4)) 101 1 (-1) 2.
Definition seg_c : segment := mk_segment (Q2Qc 2) 100 2 3 (-1).

(** Nine Tracks; the Track at 2 has no segment. *)
Definition nine_tracks : gmap Z Track :=
  list_to_map
    [(1, mk_Track [seg_a; seg_b]); (2, mk_Track []); (3, mk_Track [seg_c]);
     (4, mk_Track [seg_b]); (5, mk_Track [seg_a; seg_c; seg_b]);
     (6, mk_Track [seg_c]); (7, mk_Track [seg_a]); (8, mk_Track [seg_b; seg_b]);
     (9, mk_Track [seg_c; seg_a])].

(** 4 azimuthal angles, 3 Tracks on each of the 2 that are used, and the
    same 6 Tracks in 2 parallel groups of 3. *)
Definition store_2x3 : TrackGenerator :=
  {| getSegmentFormation := EXPLICIT_2D;
     getTracks := [[1; 2; 3]; [4; 5; 6]];
     getNumAzim := 4;
     getNumX := λ _, 2;
     getNumY := λ _, 1;
     getTracksByParallelGroup := [1; 4; 2; 5; 3; 6];
     getNumParallelTrackGroups := 2;
     getNumTracksByParallelGroup := λ _, 3 |}.

(** 9 Tracks on the one angle that is used, in 2 parallel groups of 4 and
    of 5. *)
Definition store_4_5 : TrackGenerator :=
  {| getSegmentFormation := EXPLICIT_2D;
     getTracks := [[1; 2; 3; 4; 5; 6; 7; 8; 9]];
     getNumAzim := 2;
     getNumX := λ _, 5;
     getNumY := λ _, 4;
     getTracksByParallelGroup := [1; 3; 5; 7; 2; 4; 6; 8; 9];
     getNumParallelTrackGroups := 2;
     getNumTracksByParallelGroup := λ i, if i =? 0 then 4 else 5 |}.

(** 2 Tracks on the one angle that is used, and the same 2 Tracks the
    other way round in the one parallel group. *)
Definition store_pair : TrackGenerator :=
  {| getSegmentFormation := EXPLICIT_2D;
     getTracks := [[1; 3]];
     getNumAzim := 2;
     getNumX := λ _, 1;
     getNumY := λ _, 1;
     getTracksByParallelGroup := [3; 1];
     getNumParallelTrackGroups := 1;
     getNumTracksByParallelGroup := λ _, 2 |}.

(** [store_2x3] with a segment-formation mode the engine has no case for. *)
Definition store_other_mode : TrackGenerator :=
  {| getSegmentFormation := OTHER_FORMATION 1;
     getTracks := getTracks store_2x3;
     getNumAzim := getNumAzim store_2x3;
     getNumX := getNumX store_2x3;
     getNumY := getNumY store_2x3;
     getTracksByParallelGroup := getTracksByParallelGroup store_2x3;
     getNumParallelTrackGroups := getNumParallelTrackGroups store_2x3;
     getNumTracksByParallelGroup := getNumTracksByParallelGroup store_2x3 |}.

Definition engine_2x3 : TraverseTracks nat :=
  new_TraverseTracks store_2x3 counting_hook.
Definition engine_4_5 : TraverseTracks nat :=
  new_TraverseTracks store_4_5 counting_hook.
Definition engine_pair : TraverseTracks nat :=
  new_TraverseTracks store_pair counting_hook.
Definition engine_other_mode : TraverseTracks nat :=
  new_TraverseTracks store_other_mode counting_hook.

(** The state a traversal starts in: nothing traced yet. *)
Definition start {K} (ks : K) : state K nat :=
  {| kernel_state := ks; hook_state := 0%nat;
     memory := nine_tracks; trace := [] |}.

(** ** More about what a traversal amounts to *)

Section Frames.

Context {K : Type}.

(** The kernel leaves every Track as it finds it: [newTrack] regenerates
    no segment.  An absent kernel does so too. *)
Definition preserves_tracks (kernel : option (MOCKernel K)) : Prop :=
  match kernel with
  | Some k => ∀ t T ks, (newTrack k t T ks).2 = T
  | None => True
  end.

(** The calls made for the Track at [t] when the kernel regenerates
    nothing: [newTrack] and one [execute] per segment when there is a
    kernel, then the hook. *)
Definition track_events (kernel : option (MOCKernel K)) (m : gmap Z Track)
    (t : TrackPtr) : list event :=
  (if non_null kernel
   then EvNewTrack t :: (EvExecute_of <$> _segments (the_track m t))
   else []) ++
  [EvOnTrack t (_segments (the_track m t))].

End Frames.

(** The number of Tracks in all the parallel groups. *)
Definition group_total (tg : TrackGenerator) : Z :=
  foldr (λ i acc, getNumTracksByParallelGroup tg i + acc) 0
    (seqZ 0 (getNumParallelTrackGroups tg)).

(** [store_2x3] without a Track array: no angle and no parallel group. *)
Definition store_empty : TrackGenerator :=
  {| getSegmentFormation := EXPLICIT_2D;
     getTracks := [];
     getNumAzim := 1;
     getNumX := λ _, 2;
     getNumY := λ _, 1;
     getTracksByParallelGroup := [];
     getNumParallelTrackGroups := 0;
     getNumTracksByParallelGroup := λ _, 3 |}.

Definition engine_empty : TraverseTracks nat :=
  new_TraverseTracks store_empty counting_hook.

(** The engine as the class defines it, with the hook that does nothing. *)
Definition engine_base : TraverseTracks nat :=
  new_TraverseTracks store_2x3 onTrack_default.

(** ** Loops *)

Lemma for_each_app {I A} (body : I → A → result A) (l1 l2 : list I) acc :
  for_each body (l1 ++ l2) acc =
  for_each body l1 acc ≫= for_each body l2.
Proof.
  revert acc. induction l1 as [|i l1 IH]; intros acc; simpl; [done|].
  destruct (body i acc) as [acc'|e]; simpl; [apply IH|done].
Qed.

(** A loop whose body first computes [f i] and then runs [g] on it is the
    loop of [g] over the values of [f], when all of them are defined. *)
Lemma for_each_mapM {I J A} (body : I → A → result A) (f : I → result J)
    (g : J → A → result A) (l : list I) (ys : list J) acc :
  (∀ i y acc, f i = Ok y → body i acc = g y acc) →
  mapM f l = Ok ys →
  for_each body l acc = for_each g ys acc.
Proof.
  intros Hbody. revert ys acc.
  induction l as [|i l IH]; intros ys acc; simpl.
  - by intros [= <-].
  - destruct (f i) as [y|e] eqn:Hfi; simpl; [|done].
    destruct (mapM f l) as [ys'|e]; simpl; [|done].
    intros [= <-]. simpl. rewrite (Hbody i y acc Hfi).
    destruct (g y acc); simpl; [by apply IH|done].
Qed.

Lemma for_each_concat {I A} (g : I → A → result A) (ls : list (list I)) acc :
  for_each (λ l acc, for_each g l acc) ls acc = for_each g (concat ls) acc.
Proof.
  revert acc. induction ls as [|l ls IH]; intros acc; simpl; [done|].
  rewrite for_each_app. destruct (for_each g l acc); simpl; [apply IH|done].
Qed.

Lemma for_each_not_fault {I A} (body : I → A → result A) (l : list I) acc f :
  (∀ i acc, body i acc ≠ Err f) → for_each body l acc ≠ Err f.
Proof.
  intros Hbody. revert acc. induction l as [|i l IH]; intros acc; simpl; [done|].
  specialize (Hbody i acc). destruct (body i acc); simpl; [apply IH|done].
Qed.

Lemma mapM_cons_Ok {A B} (f : A → result B) (x : A) (l : list A) ys :
  mapM f (x :: l) = Ok ys ↔
  ∃ y ys', f x = Ok y ∧ mapM f l = Ok ys' ∧ ys = y :: ys'.
Proof.
  change (mapM f (x :: l)) with (y ← f x; k ← mapM f l; Ok (y :: k)).
  destruct (f x) as [y|]; simpl.
  - destruct (mapM f l) as [ys'|]; simpl.
    + split; [intros [= <-]; eauto|]. by intros (? & ? & [= <-] & [= <-] & ->).
    + split; [done|]. by intros (? & ? & _ & [=] & _).
  - split; [done|]. by intros (? & ? & [=] & _).
Qed.

Lemma mapM_Ok_length {A B} (f : A → result B) (l : list A) (ys : list B) :
  mapM f l = Ok ys → length ys = length l.
Proof.
  revert ys. induction l as [|x l IH]; intros ys; simpl.
  - by intros [= <-].
  - destruct (f x); simpl; [|done]. destruct (mapM f l); simpl; [|done].
    intros [= <-]. simpl. f_equal. by apply IH.
Qed.

Lemma mapM_Ok_lookup {A B} (f : A → result B) (l : list A) (ys : list B)
    (n : nat) (x : A) :
  mapM f l = Ok ys → l !! n = Some x → ∃ y, ys !! n = Some y ∧ f x = Ok y.
Proof.
  revert ys n. induction l as [|x' l IH]; intros ys n; simpl; [done|].
  destruct (f x') as [y'|] eqn:Hfx; simpl; [|done].
  destruct (mapM f l) as [ys'|]; simpl; [|done].
  intros [= <-]. destruct n as [|n]; simpl.
  - intros [= ->]. by exists y'.
  - by apply IH.
Qed.

Lemma index_Ok {A} (arr : list A) (i : Z) (x : A) :
  index arr i = Ok x ↔ 0 ≤ i ∧ arr !! Z.to_nat i = Some x.
Proof.
  unfold index. destruct (Z.ltb_spec i 0).
  - split; [done|lia].
  - destruct (arr !! Z.to_nat i); split;
      [by intros [= ->]|by intros [_ [= ->]]|done|by intros [_ ?]].
Qed.

Lemma int_add_Ok (x y z : Z) : int_add x y = Ok z → z = x + y.
Proof. unfold int_add. destruct (in_int_range _); by intros [= <-]. Qed.

(** [mapM] over an index range reads the indices in ascending order. *)
Lemma mapM_seqZ_lookup {B} (f : Z → result B) (lo len : Z) (ys : list B) :
  mapM f (seqZ lo len) = Ok ys →
  length ys = Z.to_nat len ∧
  ∀ (n : nat) y, ys !! n = Some y → f (lo + Z.of_nat n) = Ok y.
Proof.
  intros Hys. pose proof (mapM_Ok_length _ _ _ Hys) as Hlen.
  rewrite length_seqZ in Hlen. split; [done|]. intros n y Hy.
  assert (seqZ lo len !! n = Some (lo + Z.of_nat n)) as Hn.
  { apply lookup_seqZ_lt. apply lookup_lt_Some in Hy. lia. }
  destruct (mapM_Ok_lookup _ _ _ _ _ Hys Hn) as (y' & Hy' & Hf). congruence.
Qed.

Lemma mapM_Ok_lookup_inv {A B} (f : A → result B) (l : list A) (ys : list B)
    (n : nat) (y : B) :
  mapM f l = Ok ys → ys !! n = Some y → ∃ x, l !! n = Some x ∧ f x = Ok y.
Proof.
  intros Hys Hy. pose proof (mapM_Ok_length _ _ _ Hys) as Hlen.
  destruct (lookup_lt_is_Some_2 l n) as [x Hx].
  { rewrite <- Hlen. by eapply lookup_lt_Some. }
  destruct (mapM_Ok_lookup _ _ _ _ _ Hys Hx) as (y' & Hy' & Hf).
  exists x. split; [done|]. congruence.
Qed.

(** The same reads in another order give the same values in that order. *)
Lemma mapM_Permutation {A B} (f : A → result B) (l l' : list A) :
  l ≡ₚ l' →
  ∀ ys, mapM f l = Ok ys → ∃ ys', mapM f l' = Ok ys' ∧ ys ≡ₚ ys'.
Proof.
  induction 1 as [|x l l' _ IH|x y l|l l' l'' _ IH1 _ IH2]; intros ys.
  - intros [= <-]. by exists [].
  - intros (y & ys1 & Hx & Hl & ->)%mapM_cons_Ok.
    destruct (IH _ Hl) as (ys' & Hl' & Hperm). exists (y :: ys'). split.
    + apply mapM_cons_Ok. eauto.
    + by constructor.
  - intros (y1 & ys1 & Hy & (x1 & ys2 & Hx & Hl & ->)%mapM_cons_Ok & ->)
      %mapM_cons_Ok.
    exists (x1 :: y1 :: ys2). split; [|by constructor].
    apply mapM_cons_Ok. exists x1, (y1 :: ys2). split; [done|]. split; [|done].
    apply mapM_cons_Ok. eauto.
  - intros Hl. destruct (IH1 _ Hl) as (ys' & Hl' & Hperm).
    destruct (IH2 _ Hl') as (ys'' & Hl'' & Hperm'). exists ys''.
    split; [done|]. by etrans.
Qed.

(** Two readers that agree up to [R] on every element agree up to [R] on
    the list. *)
Lemma mapM_Forall2 {A B} (R : B → B → Prop) (f f' : A → result B)
    (l : list A) (ys : list B) :
  (∀ x y, f x = Ok y → ∃ y', f' x = Ok y' ∧ R y y') →
  mapM f l = Ok ys →
  ∃ ys', mapM f' l = Ok ys' ∧ Forall2 R ys ys'.
Proof.
  intros Hf. revert ys. induction l as [|x l IH]; intros ys.
  - intros [= <-]. by exists [].
  - intros (y & ys1 & Hx & Hl & ->)%mapM_cons_Ok.
    destruct (Hf _ _ Hx) as (y' & Hx' & Hy).
    destruct (IH _ Hl) as (ys' & Hl' & Hys). exists (y' :: ys'). split.
    + apply mapM_cons_Ok. eauto.
    + by constructor.
Qed.

(** [tracks_by_azim] is the array [tracks_2D] restricted to the first half
    of the angles and to the positions below [getNumX(a) + getNumY(a)],
    each angle read at its positions in the order of the schedule. *)
Lemma tracks_by_azim_rows omp tg tss :
  tracks_by_azim omp tg = Ok tss →
  length tss = Z.to_nat (getNumAzim tg `quot` 2) ∧
  ∀ (a : nat) ts, tss !! a = Some ts →
    length ts = Z.to_nat (getNumX tg (Z.of_nat a) + getNumY tg (Z.of_nat a)) ∧
    ∀ (j : nat) t, ts !! j = Some t →
      ∃ i row, positions_of_azim omp tg (Z.of_nat a) !! j = Some i ∧
               getTracks tg !! a = Some row ∧
               row !! Z.to_nat i = Some t.
Proof.
  intros [Hlen Htss]%mapM_seqZ_lookup. split; [done|]. intros a ts Hts.
  specialize (Htss a ts Hts). rewrite Z.add_0_l in Htss.
  unfold tracks_of_azim in Htss.
  destruct (int_add _ _) as [num_xy|] eqn:Hadd; simpl in Htss; [|done].
  apply int_add_Ok in Hadd as ->. split.
  - rewrite (mapM_Ok_length _ _ _ Htss).
    by rewrite (Permutation_length (share_out_Permutation omp _ _ _)),
      length_seqZ.
  - intros j t Ht.
    destruct (mapM_Ok_lookup_inv _ _ _ _ _ Htss Ht) as (i & Hi & Hrow).
    destruct (index (getTracks tg) (Z.of_nat a)) as [row|] eqn:Ha;
      simpl in Hrow; [|done].
    apply index_Ok in Ha as [_ Ha]. apply index_Ok in Hrow as [_ Hrow].
    rewrite Nat2Z.id in Ha. exists i, row. by split.
Qed.

Lemma count_events_hook_calls tr :
  count_events is_EvOnTrack tr = length (hook_calls tr).
Proof.
  unfold count_events, hook_calls. induction tr as [|e tr IH]; [done|].
  rewrite bind_cons, length_app, <- IH.
  destruct e; rewrite ?filter_cons_True, ?filter_cons_False by done; done.
Qed.

(** Reading [arr] over an index range yields that slice of [arr]. *)
Lemma mapM_index_seqZ {A} (arr : list A) (lo len : Z) (ys : list A) :
  0 ≤ lo →
  mapM (index arr) (seqZ lo len) = Ok ys →
  ys = take (Z.to_nat len) (drop (Z.to_nat lo) arr).
Proof.
  intros Hlo [Hlen Hys]%mapM_seqZ_lookup. apply list_eq. intros n.
  destruct (ys !! n) as [y|] eqn:Hy.
  - pose proof (lookup_lt_Some _ _ _ Hy) as Hn.
    apply Hys, index_Ok in Hy as [_ Hy].
    rewrite lookup_take_lt, lookup_drop by lia.
    by replace (Z.to_nat lo + n)%nat with (Z.to_nat (lo + Z.of_nat n)) by lia.
  - apply lookup_ge_None in Hy.
    symmetry. apply lookup_take_ge. lia.
Qed.

(** A list without duplicates holds each of its elements once. *)
Lemma length_filter_eq_NoDup (l : list Z) (x : Z) :
  NoDup l → x ∈ l → length (filter (λ y, y = x) l) = 1%nat.
Proof.
  induction 1 as [|y l Hy Hl IH]; [by intros ?%elem_of_nil|].
  intros [->|Hx]%elem_of_cons.
  - rewrite filter_cons_True by done. simpl. f_equal.
    apply length_zero_iff_nil, elem_of_nil_inv.
    intros z [-> Hz]%list_elem_of_filter. done.
  - rewrite filter_cons_False; [by apply IH|]. by intros ->.
Qed.

(** Two blocks of a concatenation lie in it in the order of their indices. *)
Lemma concat_blocks_in_order {A} (blocks : list (list A)) (i j : nat) bi bj :
  (i < j)%nat → blocks !! i = Some bi → blocks !! j = Some bj →
  ∃ pre mid post, concat blocks = pre ++ bi ++ mid ++ bj ++ post.
Proof.
  intros Hij Hi Hj.
  assert (drop (S i) blocks !! (j - S i)%nat = Some bj) as Hj'.
  { rewrite lookup_drop. by replace (S i + (j - S i))%nat with j by lia. }
  exists (concat (take i blocks)),
         (concat (take (j - S i) (drop (S i) blocks))),
         (concat (drop (S (j - S i)) (drop (S i) blocks))).
  rewrite <- (take_drop_middle blocks i bi Hi) at 1.
  rewrite concat_app, concat_cons.
  rewrite <- (take_drop_middle _ _ bj Hj') at 1.
  by rewrite concat_app, concat_cons.
Qed.

Section Traversal.

Context {K H : Type} (omp : schedule).
Implicit Types (this : TraverseTracks H) (kernel : option (MOCKernel K)).
Implicit Types (σ : state K H) (track t : TrackPtr) (T : Track).

(** [loopOverTracks2D] visits the Tracks of [tracks_by_azim], in order. *)
Lemma loopOverTracks2D_visits this kernel σ tss :
  tracks_by_azim omp (_track_generator this) = Ok tss →
  loopOverTracks2D omp this kernel σ = for_each (visit this kernel) (concat tss) σ.
Proof.
  intros Htss. unfold loopOverTracks2D, for_range. rewrite Z.sub_0_r.
  rewrite <- for_each_concat.
  apply for_each_mapM with (f := tracks_of_azim omp (_track_generator this));
    [|exact Htss].
  intros a ts acc. unfold tracks_of_azim.
  destruct (int_add _ _) as [num_xy|e]; simpl; [|done].
  intros Hts. unfold omp_for. rewrite Z.sub_0_r.
  eapply for_each_mapM; [|exact Hts].
  intros i t acc'. simpl. destruct (index _ a); simpl; [|done].
  by intros ->.
Qed.

(** [loopOverTracksByParallelGroup2D] visits the Tracks of
    [tracks_by_group], in order. *)
Lemma loopOverTracksByParallelGroup2D_groups this kernel groups :
  ∀ max_track σ ranges tss,
  group_ranges (_track_generator this) groups max_track = Ok ranges →
  mapM (tracks_of_range omp (_track_generator this)) ranges = Ok tss →
  (for_each (λ i '(max_track, σ),
      let min_track := max_track in
      max_track ← int_add max_track
        (getNumTracksByParallelGroup (_track_generator this) i);
      σ ← omp_for omp guided i min_track max_track (λ track_id σ,
        track ← index (getTracksByParallelGroup (_track_generator this))
                  track_id;
        σ ← (if non_null kernel then
               k ← deref_kernel kernel;
               σ ← call_newTrack k track σ;
               traceSegmentsExplicit track kernel σ
             else Ok σ);
        T ← deref_track track σ;
        let segments := getSegments T in
        Ok (call_onTrack this track segments σ)) σ;
      Ok (max_track, σ)) groups (max_track, σ) ≫= λ r, Ok r.2)
  = for_each (visit this kernel) (concat tss) σ.
Proof.
  induction groups as [|i groups IH]; intros max_track σ ranges tss; simpl.
  - intros [= <-]. simpl. by intros [= <-].
  - destruct (int_add _ _) as [max_track'|e]; simpl; [|done].
    destruct (group_ranges _ groups max_track') as [rest|e] eqn:Hrest;
      simpl; [|done].
    intros [= <-]. simpl.
    destruct (tracks_of_range _ _) as [ts|e] eqn:Hts; simpl; [|done].
    destruct (mapM _ rest) as [tss'|e] eqn:Htss'; simpl; [|done].
    intros [= <-]. simpl. rewrite for_each_app.
    unfold omp_for, tracks_of_range in *. simpl in Hts.
    erewrite (for_each_mapM _ _ (visit this kernel)); [|clear|exact Hts].
    + destruct (for_each (visit this kernel) ts σ) as [σ'|e]; simpl; [|done].
      by eapply IH.
    + intros track_id t acc ->. done.
Qed.

Lemma loopOverTracksByParallelGroup2D_visits this kernel σ tss :
  tracks_by_group omp (_track_generator this) = Ok tss →
  loopOverTracksByParallelGroup2D omp this kernel σ =
  for_each (visit this kernel) (concat tss) σ.
Proof.
  unfold tracks_by_group, loopOverTracksByParallelGroup2D, for_range.
  rewrite Z.sub_0_r.
  destruct (group_ranges _ _ 0) as [ranges|e] eqn:Hranges; simpl; [|done].
  intros Htss. by eapply loopOverTracksByParallelGroup2D_groups.
Qed.

(** *** One Track *)

Lemma deref_track_Some track T σ :
  memory σ !! track = Some T → deref_track track σ = Ok T.
Proof. unfold deref_track. by intros ->. Qed.

Lemma call_execute_memory (k : MOCKernel K) seg σ :
  memory (call_execute k seg σ) = memory σ.
Proof. done. Qed.

Lemma traceSegmentsExplicit_suffix (k : MOCKernel K) track T
    (body : Z → state K H → result (state K H)) pre suf σ :
  (∀ s seg σ, memory σ !! track = Some T → 0 ≤ s →
     _segments T !! Z.to_nat s = Some seg →
     body s σ = Ok (call_execute k seg σ)) →
  memory σ !! track = Some T →
  _segments T = pre ++ suf →
  for_each body (seqZ (Z.of_nat (length pre)) (Z.of_nat (length suf))) σ
  = Ok {| kernel_state := consume k suf (kernel_state σ);
          hook_state := hook_state σ;
          memory := memory σ;
          trace := trace σ ++ (EvExecute_of <$> suf) |}.
Proof.
  intros Hbody. revert pre σ.
  induction suf as [|seg suf IH]; intros pre σ Hmem Hsegs.
  - simpl. rewrite app_nil_r. by destruct σ.
  - rewrite seqZ_cons by (simpl; lia). cbn [for_each].
    rewrite (Hbody _ seg σ Hmem) by
      (rewrite ?Nat2Z.id, ?Hsegs, ?lookup_app_r, ?Nat.sub_diag; done || lia).
    cbn [mbind result_bind].
    replace (Z.succ (Z.of_nat (length pre)))
      with (Z.of_nat (length (pre ++ [seg]))) by (rewrite length_app; simpl; lia).
    replace (Z.pred (Z.of_nat (length (seg :: suf))))
      with (Z.of_nat (length suf)) by (simpl; lia).
    rewrite (IH (pre ++ [seg])); simpl; [|done|by rewrite <- app_assoc].
    by rewrite <- app_assoc.
Qed.

(** [traceSegmentsExplicit] calls [execute] once per segment, in index
    order, and nothing else. *)
Lemma traceSegmentsExplicit_Ok (k : MOCKernel K) track T σ :
  memory σ !! track = Some T →
  traceSegmentsExplicit track (Some k) σ
  = Ok {| kernel_state := consume k (_segments T) (kernel_state σ);
          hook_state := hook_state σ;
          memory := memory σ;
          trace := trace σ ++ (EvExecute_of <$> _segments T) |}.
Proof.
  intros Hmem. unfold traceSegmentsExplicit, for_range.
  rewrite (deref_track_Some _ _ _ Hmem). simpl.
  rewrite Z.sub_0_r. unfold getNumSegments.
  apply (traceSegmentsExplicit_suffix k track T _ []); [|done..].
  intros s seg σ' Hmem' Hs Hseg. rewrite (deref_track_Some _ _ _ Hmem').
  simpl. unfold getSegment, index.
  destruct (Z.ltb_spec s 0) as [?|_]; [lia|]. by rewrite Hseg.
Qed.

Lemma visit_Ok this kernel track T σ :
  memory σ !! track = Some T →
  visit this kernel track σ = Ok (visit_result this kernel track T σ).
Proof.
  intros Hmem. unfold visit, visit_result, kernel_step.
  destruct kernel as [k|]; simpl.
  - unfold call_newTrack. rewrite (deref_track_Some _ _ _ Hmem). simpl.
    destruct (newTrack k track T (kernel_state σ)) as [ks1 T'] eqn:Hnew.
    simpl. erewrite traceSegmentsExplicit_Ok by apply lookup_insert_eq.
    simpl. unfold deref_track. simpl. rewrite lookup_insert_eq. simpl.
    unfold call_onTrack, getSegments. simpl. f_equal. f_equal.
    by rewrite <- !app_assoc.
  - rewrite (deref_track_Some _ _ _ Hmem). simpl.
    unfold call_onTrack, getSegments. simpl.
    by rewrite insert_id.
Qed.

(** *** A list of Tracks *)

Lemma trace_visit_result this kernel track T σ :
  trace (visit_result this kernel track T σ)
  = trace σ ++ visit_events kernel track T (kernel_state σ).
Proof.
  unfold visit_result, visit_events.
  by destruct (kernel_step _ _ _ _) as [[ks T'] evs].
Qed.

Lemma memory_visit_result this kernel track T σ :
  memory (visit_result this kernel track T σ)
  = <[track := (kernel_step kernel track T (kernel_state σ)).1.2]> (memory σ).
Proof.
  unfold visit_result. by destruct (kernel_step _ _ _ _) as [[ks T'] evs].
Qed.

Lemma allocated_visit_result this kernel track T σ ts :
  allocated (memory σ) ts = true →
  allocated (memory (visit_result this kernel track T σ)) ts = true.
Proof.
  unfold allocated. rewrite !forallb_forall. intros Hall t Ht.
  specialize (Hall t Ht). rewrite memory_visit_result.
  apply bool_decide_eq_true. apply bool_decide_eq_true in Hall.
  rewrite lookup_insert_is_Some. destruct (decide (track = t)); auto.
Qed.

Lemma allocated_cons m t ts :
  allocated m (t :: ts) = true ↔ is_Some (m !! t) ∧ allocated m ts = true.
Proof.
  unfold allocated. simpl. rewrite andb_true_iff, bool_decide_eq_true. done.
Qed.

Lemma the_track_Some m t : is_Some (m !! t) → m !! t = Some (the_track m t).
Proof. unfold the_track. by intros [T ->]. Qed.

(** Visiting allocated Tracks never faults. *)
Lemma visits_Ok this kernel ts σ :
  allocated (memory σ) ts = true →
  for_each (visit this kernel) ts σ = Ok (visits_result this kernel ts σ).
Proof.
  revert σ. induction ts as [|t ts IH]; intros σ; simpl; [done|].
  intros [Ht Hts]%allocated_cons.
  rewrite (visit_Ok _ _ _ _ _ (the_track_Some _ _ Ht)). simpl.
  apply IH. by apply allocated_visit_result.
Qed.

Lemma trace_visits_result this kernel ts σ :
  trace (visits_result this kernel ts σ)
  = trace σ ++ visits_events this kernel ts σ.
Proof.
  revert σ. induction ts as [|t ts IH]; intros σ; simpl.
  - by rewrite app_nil_r.
  - by rewrite IH, trace_visit_result, <- app_assoc.
Qed.

Lemma visits_result_app this kernel ts1 ts2 σ :
  visits_result this kernel (ts1 ++ ts2) σ
  = visits_result this kernel ts2 (visits_result this kernel ts1 σ).
Proof. revert σ. induction ts1 as [|t ts1 IH]; intros σ; simpl; auto. Qed.

Lemma visits_events_app this kernel ts1 ts2 σ :
  visits_events this kernel (ts1 ++ ts2) σ
  = visits_events this kernel ts1 σ ++
    visits_events this kernel ts2 (visits_result this kernel ts1 σ).
Proof.
  revert σ. induction ts1 as [|t ts1 IH]; intros σ; simpl; [done|].
  by rewrite IH, <- app_assoc.
Qed.

(** *** The two entry points *)

Lemma loopOverTracks_Ok this kernel σ tss :
  _segment_formation this = EXPLICIT_2D →
  tracks_by_azim omp (_track_generator this) = Ok tss →
  allocated (memory σ) (concat tss) = true →
  loopOverTracks omp this kernel σ
  = Ok (visits_result this kernel (concat tss) σ).
Proof.
  intros Hmode Htss Hmem. unfold loopOverTracks. rewrite Hmode.
  rewrite (loopOverTracks2D_visits _ _ _ _ Htss). by apply visits_Ok.
Qed.

Lemma loopOverTracksByParallelGroup_Ok this kernel σ tss :
  _segment_formation this = EXPLICIT_2D →
  tracks_by_group omp (_track_generator this) = Ok tss →
  allocated (memory σ) (concat tss) = true →
  loopOverTracksByParallelGroup omp this kernel σ
  = Ok (visits_result this kernel (concat tss) σ).
Proof.
  intros Hmode Htss Hmem. unfold loopOverTracksByParallelGroup. rewrite Hmode.
  rewrite (loopOverTracksByParallelGroup2D_visits _ _ _ _ Htss).
  by apply visits_Ok.
Qed.

(** *** The events of a traversal *)

Lemma hook_calls_app tr1 tr2 :
  hook_calls (tr1 ++ tr2) = hook_calls tr1 ++ hook_calls tr2.
Proof. apply bind_app. Qed.

Lemma newTrack_calls_app tr1 tr2 :
  newTrack_calls (tr1 ++ tr2) = newTrack_calls tr1 ++ newTrack_calls tr2.
Proof. apply bind_app. Qed.

Lemma hook_calls_EvExecute segs : hook_calls (EvExecute_of <$> segs) = [].
Proof. by induction segs. Qed.

Lemma newTrack_calls_EvExecute segs :
  newTrack_calls (EvExecute_of <$> segs) = [].
Proof. by induction segs. Qed.

Lemma hook_calls_visit_events kernel track T ks :
  hook_calls (visit_events kernel track T ks) = [track].
Proof.
  unfold visit_events, kernel_step. destruct kernel as [k|]; [|done].
  destruct (newTrack k track T ks) as [ks1 T'].
  rewrite hook_calls_app. change (EvNewTrack track :: ?l) with ([EvNewTrack track] ++ l).
  by rewrite hook_calls_app, hook_calls_EvExecute.
Qed.

Lemma newTrack_calls_visit_events kernel track T ks :
  newTrack_calls (visit_events kernel track T ks)
  = if non_null kernel then [track] else [].
Proof.
  unfold visit_events, kernel_step. destruct kernel as [k|]; [|done].
  destruct (newTrack k track T ks) as [ks1 T'].
  rewrite newTrack_calls_app.
  change (EvNewTrack track :: ?l) with ([EvNewTrack track] ++ l).
  by rewrite newTrack_calls_app, newTrack_calls_EvExecute.
Qed.

Lemma hook_calls_visits_events this kernel ts σ :
  hook_calls (visits_events this kernel ts σ) = ts.
Proof.
  revert σ. induction ts as [|t ts IH]; intros σ; simpl; [done|].
  by rewrite hook_calls_app, hook_calls_visit_events, IH.
Qed.

Lemma newTrack_calls_visits_events this kernel ts σ :
  newTrack_calls (visits_events this kernel ts σ)
  = if non_null kernel then ts else [].
Proof.
  revert σ. induction ts as [|t ts IH]; intros σ; simpl.
  - by destruct kernel.
  - rewrite newTrack_calls_app, newTrack_calls_visit_events, IH.
    by destruct kernel.
Qed.

(** With an absent kernel a visit calls the hook and nothing else. *)
Lemma visits_result_absent this ts σ :
  allocated (memory σ) ts = true →
  visits_result this None ts σ
  = {| kernel_state := kernel_state σ;
       hook_state :=
         foldl (λ h t, onTrack this t (_segments (the_track (memory σ) t)) h)
           (hook_state σ) ts;
       memory := memory σ;
       trace := trace σ ++
         ((λ t, EvOnTrack t (_segments (the_track (memory σ) t))) <$> ts) |}.
Proof.
  revert σ. induction ts as [|t ts IH]; intros σ; simpl.
  - intros _. rewrite app_nil_r. by destruct σ.
  - intros [Ht Hts]%allocated_cons.
    assert (visit_result this None t (the_track (memory σ) t) σ
            = {| kernel_state := kernel_state σ;
                 hook_state :=
                   onTrack this t (_segments (the_track (memory σ) t))
                     (hook_state σ);
                 memory := memory σ;
                 trace := trace σ ++
                   [EvOnTrack t (_segments (the_track (memory σ) t))] |})
      as ->.
    { unfold visit_result. simpl. f_equal.
      apply insert_id. by apply the_track_Some. }
    rewrite IH by done. simpl. by rewrite <- app_assoc.
Qed.

Lemma traverse_Ok e this kernel σ tss :
  _segment_formation this = EXPLICIT_2D →
  traversal_order omp e (_track_generator this) = Ok tss →
  allocated (memory σ) (concat tss) = true →
  traverse omp e this kernel σ = Ok (visits_result this kernel (concat tss) σ).
Proof.
  destruct e; simpl;
    auto using loopOverTracks_Ok, loopOverTracksByParallelGroup_Ok.
Qed.

(** *** Null kernels *)

Lemma visit_not_NullKernel this kernel track σ :
  visit this kernel track σ ≠ Err NullKernel.
Proof.
  unfold visit. destruct kernel as [k|]; simpl.
  - unfold call_newTrack.
    destruct (deref_track track σ) as [T|f] eqn:HT; simpl;
      [|by destruct f; unfold deref_track in HT; destruct (memory σ !! track)].
    destruct (newTrack k track T (kernel_state σ)) as [ks T']. simpl.
    erewrite traceSegmentsExplicit_Ok by apply lookup_insert_eq. simpl.
    erewrite deref_track_Some by apply lookup_insert_eq. done.
  - unfold deref_track. by destruct (memory σ !! track).
Qed.

Lemma index_not_NullKernel {A} (arr : list A) i : index arr i ≠ Err NullKernel.
Proof. unfold index. destruct (i <? 0); [done|]. by destruct (arr !! _). Qed.

Lemma int_add_not_NullKernel x y : int_add x y ≠ Err NullKernel.
Proof. unfold int_add. by destruct (in_int_range _). Qed.

Lemma bind_not_fault {A B} (r : result A) (g : A → result B) f :
  r ≠ Err f → (∀ a, g a ≠ Err f) → r ≫= g ≠ Err f.
Proof.
  intros Hr Hg. destruct r as [a|f']; simpl; [apply Hg|].
  intros [= ->]. by apply Hr.
Qed.

Lemma loopOverTracks2D_not_NullKernel this kernel σ :
  loopOverTracks2D omp this kernel σ ≠ Err NullKernel.
Proof.
  unfold loopOverTracks2D, for_range.
  apply for_each_not_fault. intros a σ1.
  apply bind_not_fault; [apply int_add_not_NullKernel|]. intros num_xy.
  apply for_each_not_fault. intros i σ2.
  apply bind_not_fault; [apply index_not_NullKernel|]. intros row.
  apply bind_not_fault; [apply index_not_NullKernel|]. intros t.
  apply visit_not_NullKernel.
Qed.

Lemma loopOverTracksByParallelGroup2D_not_NullKernel this kernel σ :
  loopOverTracksByParallelGroup2D omp this kernel σ ≠ Err NullKernel.
Proof.
  unfold loopOverTracksByParallelGroup2D, for_range.
  apply bind_not_fault; [|done].
  apply for_each_not_fault. intros i [max_track σ1].
  apply bind_not_fault; [apply int_add_not_NullKernel|]. intros max_track'.
  apply bind_not_fault; [|done].
  apply for_each_not_fault. intros track_id σ2.
  apply bind_not_fault; [apply index_not_NullKernel|]. intros t.
  apply visit_not_NullKernel.
Qed.

(** Without the test [kernel != NULL] the helper does dereference a null
    kernel, at the first segment. *)
Lemma traceSegmentsExplicit_null_kernel track T σ :
  memory σ !! track = Some T →
  _segments T ≠ [] →
  traceSegmentsExplicit track None σ = Err NullKernel.
Proof.
  intros Hmem Hsegs. unfold traceSegmentsExplicit, for_range.
  rewrite (deref_track_Some _ _ _ Hmem). cbn [mbind result_bind].
  unfold getNumSegments. destruct (_segments T) as [|seg segs] eqn:HT; [done|].
  rewrite seqZ_cons by (simpl; lia). cbn [for_each].
  rewrite (deref_track_Some _ _ _ Hmem). cbn [mbind result_bind].
  unfold getSegment. by rewrite HT.
Qed.

(** The default hook leaves the hook state as it is. *)
Lemma replay_onTrack_default (tg : TrackGenerator) tr (h : H) :
  replay_hook (new_TraverseTracks tg onTrack_default) tr h = h.
Proof.
  unfold replay_hook. induction tr as [|e tr IH]; simpl; [done|].
  by destruct e.
Qed.

(** *** Claims *)

(** C10.  Neither entry point ever dereferences a null kernel pointer,
    whatever the Track Store, the machine state and the kernel argument,
    the null pointer included: [traceSegmentsExplicit], which dereferences
    its kernel argument at every segment, is reached under the test
    [kernel != NULL] only. *)
Theorem null_kernel_never_dereferenced e this kernel σ :
  traverse omp e this kernel σ ≠ Err NullKernel.
Proof.
  destruct e; simpl.
  - unfold loopOverTracks. destruct (_segment_formation this); [|done].
    apply loopOverTracks2D_not_NullKernel.
  - unfold loopOverTracksByParallelGroup.
    destruct (_segment_formation this); [|done].
    apply loopOverTracksByParallelGroup2D_not_NullKernel.
Qed.

(** C6, as the code has it.  When the cached segment-formation mode is
    not explicit 2D, either entry point returns normally and has done
    nothing: the machine state, its trace included, is the one it was
    called in. *)
Theorem unsupported_mode_does_nothing e this kernel σ v :
  _segment_formation this = OTHER_FORMATION v →
  traverse omp e this kernel σ = Ok σ.
Proof.
  intros Hmode. destruct e; simpl;
    unfold loopOverTracks, loopOverTracksByParallelGroup; by rewrite Hmode.
Qed.

(** C7.  With a null kernel either entry point makes no kernel call (no
    [newTrack], no [execute]: the kernel state is untouched and the new
    events are hook calls only), regenerates no segment (the memory is
    untouched), and calls [onTrack] once for every Track of the traversal
    order, with the segments the Track has. *)
Theorem absent_kernel_hook_only e this σ tss :
  _segment_formation this = EXPLICIT_2D →
  traversal_order omp e (_track_generator this) = Ok tss →
  allocated (memory σ) (concat tss) = true →
  ∃ σ', traverse omp e this None σ = Ok σ' ∧ hook_only this (concat tss) σ σ'.
Proof.
  intros Hmode Htss Hmem. eexists. split; [by apply traverse_Ok|].
  rewrite visits_result_absent by done. by repeat split.
Qed.

Lemma replay_hook_EvExecute this segs h :
  replay_hook this (EvExecute_of <$> segs) h = h.
Proof. revert h. induction segs as [|seg segs IH]; intros h; simpl; auto. Qed.

Lemma hook_state_visit_result this kernel track T σ :
  hook_state (visit_result this kernel track T σ)
  = replay_hook this (visit_events kernel track T (kernel_state σ))
      (hook_state σ).
Proof.
  unfold visit_result, visit_events, kernel_step. destruct kernel as [k|].
  - destruct (newTrack k track T (kernel_state σ)) as [ks1 T']. simpl.
    unfold replay_hook. rewrite foldl_app. simpl.
    fold (replay_hook this (EvExecute_of <$> _segments T') (hook_state σ)).
    by rewrite replay_hook_EvExecute.
  - done.
Qed.

Lemma hook_state_visits_result this kernel ts σ :
  hook_state (visits_result this kernel ts σ)
  = replay_hook this (visits_events this kernel ts σ) (hook_state σ).
Proof.
  revert σ. induction ts as [|t ts IH]; intros σ; simpl; [done|].
  rewrite IH, hook_state_visit_result. unfold replay_hook.
  by rewrite foldl_app.
Qed.

(** C5, as the code has it.  [loopOverTracks] visits the Tracks angle by
    angle over the first half of the azimuthal angles,
    [0 .. num_azim/2 - 1] ascending.  Within angle [a] it visits every
    position of [0 .. getNumX(a)+getNumY(a) - 1] once, in the order in
    which the worksharing loop has its iterations run: the [j]-th Track of
    the angle handed to the hook (and to [newTrack], when there is a
    kernel) is [tracks_2D[a][i]] for the [j]-th position [i] of the
    schedule.  When the positions run in index order, as they do on one
    thread, that is [tracks_2D[a][j]]: position ascending. *)
Theorem loopOverTracks_order this kernel σ tss :
  _segment_formation this = EXPLICIT_2D →
  tracks_by_azim omp (_track_generator this) = Ok tss →
  allocated (memory σ) (concat tss) = true →
  ∃ σ' new,
    loopOverTracks omp this kernel σ = Ok σ' ∧
    trace σ' = trace σ ++ new ∧
    hook_calls new = concat tss ∧
    newTrack_calls new = (if non_null kernel then concat tss else []) ∧
    length tss = Z.to_nat (getNumAzim (_track_generator this) `quot` 2) ∧
    ∀ (a : nat) ts, tss !! a = Some ts →
      let num_xy := getNumX (_track_generator this) (Z.of_nat a) +
                    getNumY (_track_generator this) (Z.of_nat a) in
      let positions :=
        positions_of_azim omp (_track_generator this) (Z.of_nat a) in
      positions ≡ₚ seqZ 0 num_xy ∧
      length ts = Z.to_nat num_xy ∧
      (∀ (j : nat) t, ts !! j = Some t →
         ∃ i row, positions !! j = Some i ∧
                  getTracks (_track_generator this) !! a = Some row ∧
                  row !! Z.to_nat i = Some t) ∧
      (positions = seqZ 0 num_xy →
       ∀ (j : nat) t, ts !! j = Some t →
         ∃ row, getTracks (_track_generator this) !! a = Some row ∧
                row !! j = Some t).
Proof.
  intros Hmode Htss Hmem.
  exists (visits_result this kernel (concat tss) σ),
         (visits_events this kernel (concat tss) σ).
  split; [by apply loopOverTracks_Ok|].
  split; [apply trace_visits_result|].
  split; [apply hook_calls_visits_events|].
  split; [apply newTrack_calls_visits_events|].
  destruct (tracks_by_azim_rows _ _ _ Htss) as [Hlen Hrows].
  split; [done|]. intros a ts Hts num_xy positions.
  destruct (Hrows a ts Hts) as [Hlen' Hrow].
  split; [apply share_out_Permutation|]. split; [done|]. split; [done|].
  intros Hseq j t Ht. destruct (Hrow j t Ht) as (i & row & Hi & Ha & Hj).
  fold positions in Hi. rewrite Hseq in Hi.
  apply lookup_seqZ in Hi as [-> _]. rewrite Z.add_0_l, Nat2Z.id in Hj.
  eauto.
Qed.

Lemma track_done_visit_result this kernel t T σ :
  memory σ !! t = Some T →
  track_done this kernel t σ (visit_result this kernel t T σ).
Proof.
  intros Hmem. unfold track_done, visit_result, kernel_step.
  destruct kernel as [k|].
  - destruct (newTrack k t T (kernel_state σ)) as [ks1 T'] eqn:Hnew.
    exists T, T', (consume k (_segments T') ks1),
           (EvNewTrack t :: (EvExecute_of <$> _segments T')).
    split; [done|]. split; [by exists ks1|]. done.
  - exists T, T, (kernel_state σ), []. done.
Qed.

Lemma tracks_done_visits this kernel ts σ :
  allocated (memory σ) ts = true →
  tracks_done this kernel ts σ (visits_result this kernel ts σ).
Proof.
  revert σ. induction ts as [|t ts IH]; intros σ; simpl; [constructor|].
  intros [Ht Hts]%allocated_cons. econstructor.
  - by apply track_done_visit_result, the_track_Some.
  - by apply IH, allocated_visit_result.
Qed.

(** C2.  In one call of either entry point the hook is called once for
    every Track of the traversal order, in the order in which the Tracks
    are run, and the call for a Track comes only after [newTrack] and
    every [execute] call for the segments of that Track; it receives the
    Track pointer and the segments the Track has in memory at that moment,
    after the kernel has been at it, and the state of the solver stage is
    what these hook calls make of it. *)
Theorem hook_once_after_kernel e this kernel σ tss :
  _segment_formation this = EXPLICIT_2D →
  traversal_order omp e (_track_generator this) = Ok tss →
  allocated (memory σ) (concat tss) = true →
  ∃ σ' new,
    traverse omp e this kernel σ = Ok σ' ∧
    trace σ' = trace σ ++ new ∧
    tracks_done this kernel (concat tss) σ σ' ∧
    hook_calls new = concat tss ∧
    hook_state σ' = replay_hook this new (hook_state σ) ∧
    (NoDup (concat tss) → ∀ t, t ∈ concat tss →
       length (filter (λ t', t' = t) (hook_calls new)) = 1%nat).
Proof.
  intros Hmode Htss Hmem.
  exists (visits_result this kernel (concat tss) σ),
         (visits_events this kernel (concat tss) σ).
  split; [by apply traverse_Ok|].
  split; [apply trace_visits_result|].
  split; [by apply tracks_done_visits|].
  rewrite hook_calls_visits_events. split; [done|].
  split; [apply hook_state_visits_result|].
  intros Hnodup t Ht. by apply length_filter_eq_NoDup.
Qed.

(** C4, as the code has it.  For a Track [T] at [track] and a kernel [k],
    with [T'] the Track as [newTrack] leaves it: the helper
    [traceSegmentsExplicit] calls [execute] once per segment of [T'], in
    index order, with the five fields of the segment, and makes no other
    call, none of [newTrack] either; it is the loop body that calls
    [newTrack] once with the Track pointer, then the helper, then the hook,
    so that the events of the Track are the [newTrack] call, the [execute]
    call of segment [s] at position [s + 1], and the hook call with the
    segments of [T'] last. *)
Theorem kernel_applied_before_hook this k track T ks1 T' σ :
  memory σ !! track = Some T →
  newTrack k track T (kernel_state σ) = (ks1, T') →
  (∀ σ1 : state K H, memory σ1 !! track = Some T' →
     traceSegmentsExplicit track (Some k) σ1
     = Ok {| kernel_state := consume k (_segments T') (kernel_state σ1);
             hook_state := hook_state σ1;
             memory := memory σ1;
             trace := trace σ1 ++ (EvExecute_of <$> _segments T') |}) ∧
  ∃ σ' new,
    visit this (Some k) track σ = Ok σ' ∧
    trace σ' = trace σ ++ new ∧
    new = [EvNewTrack track] ++ (EvExecute_of <$> _segments T') ++
          [EvOnTrack track (_segments T')] ∧
    (∀ (s : nat) seg, _segments T' !! s = Some seg →
       new !! S s = Some (EvExecute (_length seg) (_material seg)
                            (_region_id seg) (_cmfd_surface_fwd seg)
                            (_cmfd_surface_bwd seg))) ∧
    newTrack_calls new = [track] ∧
    hook_calls new = [track] ∧
    memory σ' !! track = Some T'.
Proof.
  intros Hmem Hnew. split.
  { intros σ1 Hmem1. by apply traceSegmentsExplicit_Ok. }
  exists (visit_result this (Some k) track T σ),
         (visit_events (Some k) track T (kernel_state σ)).
  split; [by apply visit_Ok|].
  split; [apply trace_visit_result|].
  split; [|split; [|split; [|split]]].
  - unfold visit_events, kernel_step. by rewrite Hnew.
  - intros s seg Hseg. unfold visit_events, kernel_step. rewrite Hnew.
    simpl. rewrite lookup_app_l
      by (rewrite length_fmap; by eapply lookup_lt_Some).
    by rewrite list_lookup_fmap, Hseg.
  - apply (newTrack_calls_visit_events (Some k)).
  - apply hook_calls_visit_events.
  - rewrite memory_visit_result. unfold kernel_step. rewrite Hnew. simpl.
    apply lookup_insert_eq.
Qed.

Lemma allocated_app m ts1 ts2 :
  allocated m (ts1 ++ ts2) = true ↔
  allocated m ts1 = true ∧ allocated m ts2 = true.
Proof. unfold allocated. by rewrite forallb_app, andb_true_iff. Qed.

Lemma allocated_visits_result this kernel ts σ ts' :
  allocated (memory σ) ts' = true →
  allocated (memory (visits_result this kernel ts σ)) ts' = true.
Proof.
  revert σ. induction ts as [|t ts IH]; intros σ Hts'; simpl; [done|].
  by apply IH, allocated_visit_result.
Qed.


(** *** The same Tracks in another order *)

Lemma regenerated_any_state kernel ks0 ks t T :
  regenerates_by_track_alone kernel →
  (kernel_step kernel t T ks).1.2 = regenerated kernel ks0 t T.
Proof.
  unfold regenerated, kernel_step. destruct kernel as [k|]; [|done].
  intros Hk. specialize (Hk t T ks ks0).
  destruct (newTrack k t T ks), (newTrack k t T ks0). done.
Qed.

Lemma the_track_insert_ne m t t' T :
  t ≠ t' → the_track (<[t := T]> m) t' = the_track m t'.
Proof. intros Hne. unfold the_track. by rewrite lookup_insert_ne. Qed.

Lemma memory_after_Permutation kernel ks0 ts ts' :
  ts ≡ₚ ts' → ∀ m, memory_after kernel ks0 ts m = memory_after kernel ks0 ts' m.
Proof.
  induction 1 as [|x l l' _ IH|x y l|l l' l'' _ IH1 _ IH2]; intros m; simpl.
  - done.
  - apply IH.
  - destruct (decide (x = y)) as [->|Hne]; [done|].
    rewrite !the_track_insert_ne by done.
    by rewrite insert_insert_ne.
  - by rewrite IH1.
Qed.

Lemma pairs_seen_Permutation kernel ks0 ts ts' :
  ts ≡ₚ ts' → ∀ m, pairs_seen kernel ks0 ts m ≡ₚ pairs_seen kernel ks0 ts' m.
Proof.
  induction 1 as [|x l l' _ IH|x y l|l l' l'' _ IH1 _ IH2]; intros m; simpl.
  - done.
  - by rewrite IH.
  - destruct (decide (x = y)) as [->|Hne]; [done|].
    rewrite !the_track_insert_ne by done.
    rewrite (insert_insert_ne _ x y) by done.
    rewrite !app_assoc. f_equiv. apply Permutation_app_comm.
  - by rewrite IH1.
Qed.

Lemma hook_visits_app tr1 tr2 :
  hook_visits (tr1 ++ tr2) = hook_visits tr1 ++ hook_visits tr2.
Proof. apply bind_app. Qed.

Lemma hook_visits_EvExecute (segs : list segment) :
  hook_visits (EvExecute_of <$> segs) = [].
Proof. by induction segs. Qed.

Lemma hook_visits_visit_events kernel t T ks :
  hook_visits (visit_events kernel t T ks)
  = pair t <$> _segments (kernel_step kernel t T ks).1.2.
Proof.
  unfold visit_events, kernel_step. destruct kernel as [k|].
  - destruct (newTrack k t T ks) as [ks1 T']. simpl.
    rewrite hook_visits_app, hook_visits_EvExecute. simpl.
    by rewrite app_nil_r.
  - simpl. by rewrite app_nil_r.
Qed.

Lemma kernel_visits_EvExecute t (segs : list segment) rest :
  kernel_visits (Some t) ((EvExecute_of <$> segs) ++ rest)
  = (pair t <$> segs) ++ kernel_visits (Some t) rest.
Proof.
  induction segs as [|seg segs IH]; [done|].
  rewrite !fmap_cons, <- !app_comm_cons. unfold EvExecute_of at 1.
  cbn [kernel_visits]. rewrite IH. by destruct seg.
Qed.

Lemma kernel_visits_visit_events kernel cur t T ks rest :
  kernel_visits cur (visit_events kernel t T ks ++ rest)
  = if non_null kernel
    then (pair t <$> _segments (kernel_step kernel t T ks).1.2) ++
         kernel_visits (Some t) rest
    else kernel_visits cur rest.
Proof.
  unfold visit_events, kernel_step. destruct kernel as [k|]; [|done].
  destruct (newTrack k t T ks) as [ks1 T']. simpl.
  by rewrite <- app_assoc, kernel_visits_EvExecute.
Qed.

Lemma hook_visits_visits_events this kernel ks0 ts σ :
  regenerates_by_track_alone kernel →
  hook_visits (visits_events this kernel ts σ)
  = pairs_seen kernel ks0 ts (memory σ).
Proof.
  intros Hk. revert σ. induction ts as [|t ts IH]; intros σ; simpl; [done|].
  rewrite hook_visits_app, hook_visits_visit_events, IH.
  rewrite memory_visit_result.
  by rewrite !(regenerated_any_state kernel ks0).
Qed.

Lemma kernel_visits_visits_events this kernel ks0 cur ts σ :
  regenerates_by_track_alone kernel →
  kernel_visits cur (visits_events this kernel ts σ)
  = if non_null kernel then pairs_seen kernel ks0 ts (memory σ) else [].
Proof.
  intros Hk. revert cur σ.
  induction ts as [|t ts IH]; intros cur σ; simpl; [by destruct kernel|].
  rewrite kernel_visits_visit_events, !IH, memory_visit_result.
  rewrite !(regenerated_any_state kernel ks0) by done.
  by destruct kernel.
Qed.

Lemma memory_visits_result this kernel ks0 ts σ :
  regenerates_by_track_alone kernel →
  memory (visits_result this kernel ts σ)
  = memory_after kernel ks0 ts (memory σ).
Proof.
  intros Hk. revert σ. induction ts as [|t ts IH]; intros σ; simpl; [done|].
  rewrite IH, memory_visit_result.
  by rewrite !(regenerated_any_state kernel ks0).
Qed.

Lemma allocated_Permutation m ts ts' :
  ts ≡ₚ ts' → allocated m ts = true → allocated m ts' = true.
Proof.
  unfold allocated. rewrite !forallb_forall. intros Hperm Hall t Ht.
  apply Hall. apply list_elem_of_In. rewrite Hperm. by apply list_elem_of_In.
Qed.

(** C1, as the code has it.  On a Track Store whose parallel groups hold
    the Tracks of the first half of the angles (each as often), and for a
    kernel that is absent or regenerates the segments of a Track from the
    Track alone (one that leaves segments as they are, say), the two entry
    points visit the same multiset of (track, segment) pairs, through the
    hook and through the kernel, and leave the same Tracks in memory. *)
Theorem same_visits_in_either_order this kernel σ tss_azim tss_group :
  _segment_formation this = EXPLICIT_2D →
  tracks_by_azim omp (_track_generator this) = Ok tss_azim →
  tracks_by_group omp (_track_generator this) = Ok tss_group →
  concat tss_azim ≡ₚ concat tss_group →
  allocated (memory σ) (concat tss_azim) = true →
  regenerates_by_track_alone kernel →
  ∃ σ1 σ2 new1 new2,
    loopOverTracks omp this kernel σ = Ok σ1 ∧
    loopOverTracksByParallelGroup omp this kernel σ = Ok σ2 ∧
    trace σ1 = trace σ ++ new1 ∧
    trace σ2 = trace σ ++ new2 ∧
    hook_visits new1 ≡ₚ hook_visits new2 ∧
    kernel_visits None new1 ≡ₚ kernel_visits None new2 ∧
    memory σ1 = memory σ2.
Proof.
  intros Hmode Hazim Hgroup Hperm Hmem Hk.
  exists (visits_result this kernel (concat tss_azim) σ),
         (visits_result this kernel (concat tss_group) σ),
         (visits_events this kernel (concat tss_azim) σ),
         (visits_events this kernel (concat tss_group) σ).
  split; [by apply loopOverTracks_Ok|].
  split.
  { apply loopOverTracksByParallelGroup_Ok; [done..|].
    by eapply allocated_Permutation. }
  split; [apply trace_visits_result|].
  split; [apply trace_visits_result|].
  rewrite !(hook_visits_visits_events this kernel (kernel_state σ)) by done.
  rewrite !(kernel_visits_visits_events this kernel (kernel_state σ)) by done.
  rewrite !(memory_visits_result this kernel (kernel_state σ)) by done.
  split; [by apply pairs_seen_Permutation|].
  split; [|by apply memory_after_Permutation].
  destruct (non_null kernel); [by apply pairs_seen_Permutation|done].
Qed.

(** *** The parallel groups in turn *)

Lemma kernel_visits_is_hook_visits this (k : MOCKernel K) cur ts σ :
  kernel_visits cur (visits_events this (Some k) ts σ)
  = hook_visits (visits_events this (Some k) ts σ).
Proof.
  revert cur σ. induction ts as [|t ts IH]; intros cur σ; simpl; [done|].
  rewrite kernel_visits_visit_events, hook_visits_app.
  rewrite hook_visits_visit_events, IH. done.
Qed.

Lemma groups_done_visits this kernel gs σ :
  allocated (memory σ) (concat gs) = true →
  groups_done this kernel gs (group_blocks this kernel gs σ) σ
    (visits_result this kernel (concat gs) σ).
Proof.
  revert σ. induction gs as [|g gs IH]; intros σ; simpl; [constructor|].
  intros [Hg Hgs]%allocated_app. rewrite visits_result_app.
  econstructor.
  - by apply tracks_done_visits.
  - apply trace_visits_result.
  - by apply IH, allocated_visits_result.
Qed.

Lemma concat_group_blocks this kernel gs σ :
  concat (group_blocks this kernel gs σ)
  = visits_events this kernel (concat gs) σ.
Proof.
  revert σ. induction gs as [|g gs IH]; intros σ; simpl; [done|].
  by rewrite visits_events_app, IH.
Qed.

Lemma kernel_visits_absent this cur ts σ :
  kernel_visits cur (visits_events this None ts σ) = [].
Proof.
  revert σ. induction ts as [|t ts IH]; intros σ; simpl; [done|].
  apply IH.
Qed.

(** The block of a group holds the calls for the Tracks of the group, and
    its [execute] calls consume the segments its hook calls are handed. *)
Lemma group_blocks_calls this kernel gs σ :
  Forall2 (λ g b,
      hook_calls b = g ∧
      newTrack_calls b = (if non_null kernel then g else []) ∧
      kernel_visits None b = (if non_null kernel then hook_visits b else []))
    gs (group_blocks this kernel gs σ).
Proof.
  revert σ. induction gs as [|g gs IH]; intros σ; simpl; constructor; [|done].
  split; [apply hook_calls_visits_events|].
  split; [apply newTrack_calls_visits_events|].
  destruct kernel as [k|]; simpl.
  - apply kernel_visits_is_hook_visits.
  - apply kernel_visits_absent.
Qed.

Lemma length_visits_events_absent this ts σ :
  length (visits_events this None ts σ) = length ts.
Proof.
  revert σ. induction ts as [|t ts IH]; intros σ; simpl; [done|].
  by rewrite IH.
Qed.

(** Under any schedule a parallel group holds the Tracks of its range of
    the flat array, [tracks[min_track .. max_track - 1]]. *)
Lemma tracks_by_group_slices tg tss :
  tracks_by_group omp tg = Ok tss →
  ∃ slices, tracks_by_group one_thread tg = Ok slices ∧
            Forall2 (≡ₚ) tss slices.
Proof.
  unfold tracks_by_group.
  destruct (group_ranges tg _ 0) as [ranges|]; cbn [mbind result_bind];
    [|done].
  apply mapM_Forall2. intros r g Hg.
  apply (mapM_Permutation _ _ _ (share_out_Permutation omp guided _ _)) in Hg.
  exact Hg.
Qed.

(** Two parallel groups of 4 and 5 Tracks are the first 4 and the next 5
    entries of the flat array, when read in index order. *)
Lemma tracks_by_group_4_5 tg slices :
  getNumParallelTrackGroups tg = 2 →
  getNumTracksByParallelGroup tg 0 = 4 →
  getNumTracksByParallelGroup tg 1 = 5 →
  tracks_by_group one_thread tg = Ok slices →
  slices = [take 4 (getTracksByParallelGroup tg);
            take 5 (drop 4 (getTracksByParallelGroup tg))] ∧
  length (take 4 (getTracksByParallelGroup tg)) = 4%nat ∧
  length (take 5 (drop 4 (getTracksByParallelGroup tg))) = 5%nat.
Proof.
  intros Hn H0 H1. unfold tracks_by_group. rewrite Hn.
  change (seqZ 0 2) with [0; 1]. cbn [group_ranges]. rewrite H0.
  change (int_add 0 4) with (Ok 4). cbn [mbind result_bind]. rewrite H1.
  change (int_add 4 5) with (Ok 9). cbn [mbind result_bind].
  intros (g1 & tss1 & Hg1 & (g2 & tss2 & Hg2 & [= <-] & ->)%mapM_cons_Ok
          & ->)%mapM_cons_Ok.
  unfold tracks_of_range in Hg1, Hg2.
  cbn [fst snd share_out one_thread] in Hg1, Hg2.
  pose proof (mapM_Ok_length _ _ _ Hg1) as Hl1.
  pose proof (mapM_Ok_length _ _ _ Hg2) as Hl2.
  apply mapM_index_seqZ in Hg1; [|lia]. apply mapM_index_seqZ in Hg2; [|lia].
  rewrite length_seqZ in Hl1, Hl2.
  change (Z.to_nat (4 - 0)) with 4%nat in *.
  change (Z.to_nat (9 - 4)) with 5%nat in *.
  change (Z.to_nat 4) with 4%nat in *.
  change (Z.to_nat 0) with 0%nat in *. rewrite drop_0 in Hg1.
  subst g1 g2. done.
Qed.

(** C3.  [loopOverTracksByParallelGroup] runs the parallel groups one
    after another, in group order, under every schedule of the worksharing
    loop: the new events are the blocks of the groups one behind the
    other; the block of a group holds, for every Track of the group and
    for no other, the [newTrack] call, the [execute] call of every segment
    and the hook call; and the Tracks of a group are all done before the
    first Track of the next group is begun, so that for groups [i] before
    [j] every event of group [i] lies before every event of group [j].  The
    Tracks of a group are those of its range of the flat array.  With two
    groups of 4 and 5 Tracks and an absent kernel there are 9 hook calls:
    the first 4 events are the hook calls of group 1, the next 5 those of
    group 2. *)
Theorem groups_run_in_group_order this kernel σ tss :
  _segment_formation this = EXPLICIT_2D →
  tracks_by_group omp (_track_generator this) = Ok tss →
  allocated (memory σ) (concat tss) = true →
  ∃ σ' blocks,
    loopOverTracksByParallelGroup omp this kernel σ = Ok σ' ∧
    trace σ' = trace σ ++ concat blocks ∧
    groups_done this kernel tss blocks σ σ' ∧
    Forall2 (λ g b,
        hook_calls b = g ∧
        newTrack_calls b = (if non_null kernel then g else []) ∧
        kernel_visits None b = (if non_null kernel then hook_visits b else []))
      tss blocks ∧
    (∃ slices, tracks_by_group one_thread (_track_generator this) = Ok slices ∧
               Forall2 (≡ₚ) tss slices) ∧
    (∀ (i j : nat) bi bj,
       (i < j)%nat → blocks !! i = Some bi → blocks !! j = Some bj →
       ∃ pre mid post, concat blocks = pre ++ bi ++ mid ++ bj ++ post) ∧
    (kernel = None →
     getNumParallelTrackGroups (_track_generator this) = 2 →
     getNumTracksByParallelGroup (_track_generator this) 0 = 4 →
     getNumTracksByParallelGroup (_track_generator this) 1 = 5 →
     ∃ b1 b2,
       blocks = [b1; b2] ∧
       length b1 = 4%nat ∧ length b2 = 5%nat ∧
       hook_calls b1
         ≡ₚ take 4 (getTracksByParallelGroup (_track_generator this)) ∧
       hook_calls b2
         ≡ₚ take 5 (drop 4 (getTracksByParallelGroup (_track_generator this))) ∧
       count_events is_EvOnTrack (concat blocks) = 9%nat).
Proof.
  intros Hmode Htss Hmem.
  exists (visits_result this kernel (concat tss) σ),
         (group_blocks this kernel tss σ).
  split; [by apply loopOverTracksByParallelGroup_Ok|].
  split; [by rewrite concat_group_blocks, trace_visits_result|].
  split; [by apply groups_done_visits|].
  split; [apply group_blocks_calls|].
  destruct (tracks_by_group_slices _ _ Htss) as (slices & Hslices & Hperm).
  split; [by exists slices|].
  split; [intros i j bi bj; apply concat_blocks_in_order|].
  intros -> Hn H0 H1.
  destruct (tracks_by_group_4_5 _ _ Hn H0 H1 Hslices) as (-> & Hl1 & Hl2).
  apply Forall2_cons_inv_r in Hperm as (g1 & tss1 & Hg1 & Hperm & ->).
  apply Forall2_cons_inv_r in Hperm as (g2 & tss2 & Hg2 & Hperm & ->).
  apply Forall2_nil_inv_r in Hperm as ->.
  simpl. eexists _, _. split; [done|].
  rewrite !length_visits_events_absent, !hook_calls_visits_events.
  rewrite (Permutation_length Hg1), (Permutation_length Hg2).
  repeat split; try done.
  rewrite app_nil_r, count_events_hook_calls, hook_calls_app.
  rewrite !hook_calls_visits_events, length_app.
  by rewrite (Permutation_length Hg1), (Permutation_length Hg2), Hl1, Hl2.
Qed.

End Traversal.

(** ** The counting scenario *)

Lemma replay_counting_hook (tg : TrackGenerator) tr (n : nat) :
  replay_hook (new_TraverseTracks tg counting_hook) tr n
  = (n + count_events is_EvOnTrack tr)%nat.
Proof.
  revert n. unfold replay_hook, count_events.
  induction tr as [|e tr IH]; intros n; simpl; [lia|].
  rewrite IH.
  destruct e; rewrite ?filter_cons_True, ?filter_cons_False by done;
    simpl; unfold counting_hook; lia.
Qed.

(** C9.  On a Track Store that reports 4 azimuthal angles and
    [getNumX(a) + getNumY(a) = 3] Tracks for each of the 2 angles used,
    [loopOverTracks] calls the hook 6 times, with any kernel argument (a
    kernel that does nothing included) and under any schedule: the trace
    gains 6 hook calls and a hook that counts its calls has counted 6
    more. *)
Theorem six_hook_calls {K} (omp : schedule) (tg : TrackGenerator)
    (kernel : option (MOCKernel K)) (σ : state K nat) tss :
  getSegmentFormation tg = EXPLICIT_2D →
  getNumAzim tg = 4 →
  (∀ a, 0 ≤ a < 2 → getNumX tg a + getNumY tg a = 3) →
  tracks_by_azim omp tg = Ok tss →
  allocated (memory σ) (concat tss) = true →
  ∃ σ' new,
    loopOverTracks omp (new_TraverseTracks tg counting_hook) kernel σ
      = Ok σ' ∧
    trace σ' = trace σ ++ new ∧
    count_events is_EvOnTrack new = 6%nat ∧
    hook_state σ' = (hook_state σ + 6)%nat.
Proof.
  intros Hmode Hazim Hxy Htss Hmem.
  set (this := new_TraverseTracks tg counting_hook).
  exists (visits_result this kernel (concat tss) σ),
         (visits_events this kernel (concat tss) σ).
  assert (count_events is_EvOnTrack (visits_events this kernel (concat tss) σ)
          = 6%nat) as Hcount.
  { rewrite count_events_hook_calls, hook_calls_visits_events.
    destruct (tracks_by_azim_rows _ _ _ Htss) as [Hlen Hrows].
    rewrite Hazim in Hlen. change (Z.to_nat (4 `quot` 2)) with 2%nat in Hlen.
    destruct tss as [|r0 [|r1 [|? ?]]]; simplify_eq/=.
    destruct (Hrows 0%nat r0 eq_refl) as [Hr0 _].
    destruct (Hrows 1%nat r1 eq_refl) as [Hr1 _].
    rewrite Hxy in Hr0, Hr1 by lia.
    rewrite app_nil_r, length_app, Hr0, Hr1. done. }
  split; [by apply loopOverTracks_Ok|].
  split; [apply trace_visits_result|].
  split; [done|].
  rewrite hook_state_visits_result. unfold this at 1.
  by rewrite replay_counting_hook, Hcount.
Qed.

(** ** The theorems at work on the small Track Stores *)

(** C1 fails for a kernel whose regeneration depends on its own state.
    [store_pair] lists the same two Tracks for both entry points, yet with
    [first_clears_kernel] traverse-all empties the Track at 1 and visits
    the one segment of the Track at 3, while traverse-by-parallel-group
    empties the Track at 3 and visits the two segments of the Track at 1. *)
Lemma visits_differ_with_first_clears_kernel :
  ∃ tss_azim tss_group σ1 σ2,
    tracks_by_azim one_thread store_pair = Ok tss_azim ∧
    tracks_by_group one_thread store_pair = Ok tss_group ∧
    concat tss_azim ≡ₚ concat tss_group ∧
    loopOverTracks one_thread engine_pair (Some first_clears_kernel) (start false)
      = Ok σ1 ∧
    loopOverTracksByParallelGroup one_thread engine_pair (Some first_clears_kernel)
      (start false) = Ok σ2 ∧
    ¬ hook_visits (trace σ1) ≡ₚ hook_visits (trace σ2) ∧
    ¬ kernel_visits None (trace σ1) ≡ₚ kernel_visits None (trace σ2).
Proof.
  exists [[1; 3]], [[3; 1]]. eexists _, _.
  split; [reflexivity|]. split; [reflexivity|].
  split; [apply perm_swap|].
  split; [vm_compute; reflexivity|]. split; [vm_compute; reflexivity|].
  split; intros Hperm%Permutation_length; vm_compute in Hperm; discriminate.
Qed.

Lemma same_visits_in_either_order_witness :
  ∃ σ1 σ2 new1 new2,
    loopOverTracks one_thread engine_2x3 (Some reversing_kernel) (start 0%nat) = Ok σ1 ∧
    loopOverTracksByParallelGroup one_thread engine_2x3 (Some reversing_kernel)
      (start 0%nat) = Ok σ2 ∧
    trace σ1 = new1 ∧
    trace σ2 = new2 ∧
    hook_visits new1 ≡ₚ hook_visits new2 ∧
    kernel_visits None new1 ≡ₚ kernel_visits None new2 ∧
    memory σ1 = memory σ2.
Proof.
  apply (same_visits_in_either_order one_thread engine_2x3
           (Some reversing_kernel) (start 0%nat)
           [[1; 2; 3]; [4; 5; 6]] [[1; 4; 2]; [5; 3; 6]]).
  - reflexivity.
  - reflexivity.
  - reflexivity.
  - apply (bool_decide_unpack _). vm_compute. exact I.
  - vm_compute. reflexivity.
  - intros t T ks ks'. reflexivity.
Defined.

Lemma hook_once_after_kernel_witness :
  ∃ σ',
    traverse back_to_front TraverseByParallelGroup engine_2x3
      (Some tally_kernel) (start 0%nat) = Ok σ' ∧
    tracks_done engine_2x3 (Some tally_kernel) [2; 4; 1; 6; 3; 5]
      (start 0%nat) σ' ∧
    hook_calls (trace σ') = [2; 4; 1; 6; 3; 5] ∧
    hook_state σ' = 6%nat.
Proof.
  destruct (hook_once_after_kernel back_to_front TraverseByParallelGroup
              engine_2x3 (Some tally_kernel) (start 0%nat)
              [[2; 4; 1]; [6; 3; 5]])
    as (σ' & new & Hrun & Htrace & Hspec & Hcalls & Hhook & Honce).
  - reflexivity.
  - reflexivity.
  - vm_compute. reflexivity.
  - exists σ'. rewrite Hhook, Htrace.
    unfold engine_2x3. rewrite replay_counting_hook, count_events_hook_calls.
    rewrite Hcalls. auto.
Defined.

Lemma groups_run_in_group_order_witness :
  ∃ σ' b1 b2,
    loopOverTracksByParallelGroup back_to_front engine_4_5 None (start tt)
      = Ok σ' ∧
    trace σ' = b1 ++ b2 ∧
    hook_calls b1 = [7; 5; 3; 1] ∧
    hook_calls b2 = [9; 8; 6; 4; 2] ∧
    length b1 = 4%nat ∧ length b2 = 5%nat ∧
    count_events is_EvOnTrack (trace σ') = 9%nat.
Proof.
  destruct (groups_run_in_group_order back_to_front engine_4_5 None (start tt)
              [[7; 5; 3; 1]; [9; 8; 6; 4; 2]])
    as (σ' & blocks & Hrun & Htrace & _ & Hcalls & _ & _ & Hscenario).
  - reflexivity.
  - reflexivity.
  - vm_compute. reflexivity.
  - destruct Hscenario as (b1 & b2 & -> & Hl1 & Hl2 & _ & _ & Hcount);
      [reflexivity..|].
    apply Forall2_cons_1 in Hcalls as [(Hc1 & _) Hcalls].
    apply Forall2_cons_1 in Hcalls as [(Hc2 & _) _].
    exists σ', b1, b2. rewrite Htrace. simpl in *. rewrite app_nil_r in *.
    auto 10.
Defined.

Lemma kernel_applied_before_hook_witness :
  ∃ σ',
    visit engine_2x3 (Some tally_kernel) 5 (start 0%nat) = Ok σ' ∧
    trace σ' = [EvNewTrack 5; EvExecute_of seg_a; EvExecute_of seg_c;
                EvExecute_of seg_b; EvOnTrack 5 [seg_a; seg_c; seg_b]] ∧
    kernel_state σ' = 3%nat.
Proof.
  destruct (kernel_applied_before_hook engine_2x3 tally_kernel 5
              (mk_Track [seg_a; seg_c; seg_b]) 0%nat
              (mk_Track [seg_a; seg_c; seg_b]) (start 0%nat))
    as (_ & σ' & new & Hrun & Htrace & -> & _).
  - vm_compute. reflexivity.
  - reflexivity.
  - exists σ'. split; [exact Hrun|]. split; [exact Htrace|].
    revert Hrun. vm_compute. by intros [= <-].
Defined.

(** C4 fails for the helper on its own: [traceSegmentsExplicit] consumes
    the three segments of the Track at 5 and never calls [newTrack]. *)
Lemma traceSegmentsExplicit_never_notifies :
  ∃ σ',
    traceSegmentsExplicit 5 (Some tally_kernel) (start 0%nat) = Ok σ' ∧
    trace σ' = [EvExecute_of seg_a; EvExecute_of seg_c; EvExecute_of seg_b] ∧
    newTrack_calls (trace σ') = [].
Proof. eexists. split; [vm_compute; reflexivity|]. by split. Qed.

Lemma loopOverTracks_order_witness :
  ∃ σ' new,
    loopOverTracks back_to_front engine_2x3 (Some noop_kernel) (start tt)
      = Ok σ' ∧
    trace σ' = new ∧
    hook_calls new = [3; 2; 1; 6; 5; 4] ∧
    newTrack_calls new = [3; 2; 1; 6; 5; 4].
Proof.
  destruct (loopOverTracks_order back_to_front engine_2x3 (Some noop_kernel)
              (start tt) [[3; 2; 1]; [6; 5; 4]])
    as (σ' & new & Hrun & Htrace & Hhook & Hnew & _).
  - reflexivity.
  - reflexivity.
  - vm_compute. reflexivity.
  - exists σ', new. auto.
Defined.

(** C5 fails within an angle when the worksharing loop does not have its
    iterations run in index order: under [back_to_front] the Tracks of
    angle 0, at the positions 0, 1 and 2 of [store_2x3], are handed to the
    hook as 3, 2, 1, position descending, and so are those of angle 1. *)
Lemma positions_not_ascending :
  ∃ σ',
    loopOverTracks back_to_front engine_2x3 (Some noop_kernel) (start tt)
      = Ok σ' ∧
    getTracks store_2x3 = [[1; 2; 3]; [4; 5; 6]] ∧
    hook_calls (trace σ') = [3; 2; 1; 6; 5; 4] ∧
    hook_calls (trace σ') ≠ [1; 2; 3; 4; 5; 6].
Proof.
  eexists. split; [vm_compute; reflexivity|]. split; [reflexivity|].
  split; [reflexivity|]. vm_compute. discriminate.
Qed.

(** C6 fails: with a mode that is not explicit 2D both entry points
    return normally, in the state they were called in, without a trace. *)
Lemma unsupported_mode_is_no_error :
  loopOverTracks one_thread engine_other_mode (Some noop_kernel) (start tt)
    = Ok (start tt) ∧
  loopOverTracksByParallelGroup one_thread engine_other_mode (Some noop_kernel) (start tt)
    = Ok (start tt) ∧
  trace (start tt) = [] ∧
  ¬ ∃ f, loopOverTracks one_thread engine_other_mode (Some noop_kernel) (start tt)
         = Err f.
Proof. repeat split. by intros [f ?]. Qed.

Lemma unsupported_mode_does_nothing_witness :
  traverse one_thread TraverseAll engine_other_mode (Some noop_kernel) (start tt)
  = Ok (start tt).
Proof.
  apply (unsupported_mode_does_nothing one_thread TraverseAll engine_other_mode
           (Some noop_kernel) (start tt) 1).
  reflexivity.
Defined.

Lemma absent_kernel_hook_only_witness :
  ∃ σ',
    traverse one_thread TraverseAll engine_2x3 None (start tt) = Ok σ' ∧
    hook_only engine_2x3 [1; 2; 3; 4; 5; 6] (start tt) σ'.
Proof.
  apply (absent_kernel_hook_only one_thread TraverseAll engine_2x3 (start tt)
           [[1; 2; 3]; [4; 5; 6]]).
  - reflexivity.
  - reflexivity.
  - vm_compute. reflexivity.
Defined.


Lemma six_hook_calls_witness :
  ∃ σ' new,
    loopOverTracks one_thread engine_2x3 (Some noop_kernel) (start tt) = Ok σ' ∧
    trace σ' = new ∧
    count_events is_EvOnTrack new = 6%nat ∧
    hook_state σ' = 6%nat.
Proof.
  apply (six_hook_calls one_thread store_2x3 (Some noop_kernel) (start tt)
           [[1; 2; 3]; [4; 5; 6]]).
  - reflexivity.
  - reflexivity.
  - intros a Ha. reflexivity.
  - reflexivity.
  - vm_compute. reflexivity.
Defined.

(** ** Further properties of the engine *)

Section More.

Context {K H : Type} (omp : schedule).
Implicit Types (this : TraverseTracks H) (kernel : option (MOCKernel K)).
Implicit Types (σ : state K H) (track t : TrackPtr) (T : Track).

(** X1.  [traceSegmentsExplicit] dereferences its kernel argument inside
    the segment loop only.  Given a null kernel it returns normally, in the
    state it was called in, for a Track without segments, and it
    dereferences the null pointer for a Track with at least one segment. *)
Theorem traceSegmentsExplicit_null_kernel_cases track T σ :
  memory σ !! track = Some T →
  (_segments T = [] → traceSegmentsExplicit track None σ = Ok σ) ∧
  (_segments T ≠ [] → traceSegmentsExplicit track None σ = Err NullKernel).
Proof.
  intros Hmem. split; [|by apply traceSegmentsExplicit_null_kernel].
  intros Hsegs. unfold traceSegmentsExplicit, for_range.
  rewrite (deref_track_Some _ _ _ Hmem). cbn [mbind result_bind].
  unfold getNumSegments. by rewrite Hsegs.
Qed.

(** X2.  With fewer than 2 azimuthal angles [loopOverTracks2D] has no
    angle to walk (for 1 angle as well, since [num_azim/2] is 0), and with
    no parallel group [loopOverTracksByParallelGroup2D] has no group to
    walk: each returns the state it was called in, makes no call and reads
    no array, whatever the arrays of the Track Store hold. *)
Theorem nothing_to_walk this kernel σ :
  (getNumAzim (_track_generator this) < 2 →
   loopOverTracks2D omp this kernel σ = Ok σ) ∧
  (getNumParallelTrackGroups (_track_generator this) ≤ 0 →
   loopOverTracksByParallelGroup2D omp this kernel σ = Ok σ).
Proof.
  split; intros Hn.
  - unfold loopOverTracks2D, for_range. rewrite seqZ_nil; [done|].
    rewrite Z.sub_0_r.
    destruct (Z.le_gt_cases 0 (getNumAzim (_track_generator this))).
    + assert (getNumAzim (_track_generator this) `quot` 2 < 1); [|lia].
      apply Z.quot_lt_upper_bound; lia.
    + pose proof (Z.quot_opp_l (getNumAzim (_track_generator this)) 2).
      assert (0 ≤ (- getNumAzim (_track_generator this)) `quot` 2)
        by (apply Z.quot_pos; lia).
      lia.
  - unfold loopOverTracksByParallelGroup2D, for_range.
    rewrite seqZ_nil by lia. done.
Qed.

Lemma memory_visits_result_frame this kernel ts σ t :
  t ∉ ts → memory (visits_result this kernel ts σ) !! t = memory σ !! t.
Proof.
  revert σ. induction ts as [|t' ts IH]; intros σ; simpl; [done|].
  intros [Hne Hts]%not_elem_of_cons. rewrite IH by done.
  rewrite memory_visit_result. by apply lookup_insert_ne.
Qed.

Lemma dom_memory_visits_result this kernel ts σ :
  allocated (memory σ) ts = true →
  dom (memory (visits_result this kernel ts σ)) = dom (memory σ).
Proof.
  revert σ. induction ts as [|t ts IH]; intros σ; simpl; [done|].
  intros [Ht Hts]%allocated_cons.
  rewrite IH by by apply allocated_visit_result.
  rewrite memory_visit_result. by apply dom_insert_lookup_L.
Qed.

(** X4.  A traversal neither creates nor destroys a Track, and it leaves
    every Track outside its traversal order as it is, whatever the kernel
    does to the Tracks it is shown. *)
Theorem traversal_frame e this kernel σ tss :
  _segment_formation this = EXPLICIT_2D →
  traversal_order omp e (_track_generator this) = Ok tss →
  allocated (memory σ) (concat tss) = true →
  ∃ σ',
    traverse omp e this kernel σ = Ok σ' ∧
    dom (memory σ') = dom (memory σ) ∧
    ∀ t, t ∉ concat tss → memory σ' !! t = memory σ !! t.
Proof.
  intros Hmode Htss Hmem. eexists. split; [by apply traverse_Ok|].
  split; [by apply dom_memory_visits_result|].
  intros t Ht. by apply memory_visits_result_frame.
Qed.

Lemma visit_result_preserved this kernel t σ :
  preserves_tracks kernel →
  is_Some (memory σ !! t) →
  memory (visit_result this kernel t (the_track (memory σ) t) σ) = memory σ ∧
  visit_events kernel t (the_track (memory σ) t) (kernel_state σ)
  = track_events kernel (memory σ) t.
Proof.
  intros Hk Ht. rewrite memory_visit_result.
  unfold visit_events, track_events, kernel_step.
  destruct kernel as [k|]; simpl in *.
  - specialize (Hk t (the_track (memory σ) t) (kernel_state σ)).
    destruct (newTrack k t _ _) as [ks1 T']. simpl in *. subst T'.
    split; [|done]. by apply insert_id, the_track_Some.
  - split; [|done]. by apply insert_id, the_track_Some.
Qed.

Lemma visits_result_preserved this kernel ts σ :
  preserves_tracks kernel →
  allocated (memory σ) ts = true →
  memory (visits_result this kernel ts σ) = memory σ ∧
  visits_events this kernel ts σ = ts ≫= track_events kernel (memory σ).
Proof.
  intros Hk. revert σ. induction ts as [|t ts IH]; intros σ; simpl; [done|].
  intros [Ht Hts]%allocated_cons.
  destruct (visit_result_preserved this kernel t σ Hk Ht) as [Hm Hev].
  destruct (IH (visit_result this kernel t (the_track (memory σ) t) σ))
    as [Hm' Hev']; [by rewrite Hm|].
  rewrite Hm', Hev', Hev, Hm. done.
Qed.


(** X6.  The engine keeps nothing from one call to the next: with a kernel
    that regenerates nothing (or no kernel), a second call of the same
    entry point, started where the first one ended and run under the same
    schedule, returns normally and makes the calls of the first one again,
    whatever the kernel and the hook have made of their own states. *)
Theorem traversal_repeats e this kernel σ tss :
  _segment_formation this = EXPLICIT_2D →
  traversal_order omp e (_track_generator this) = Ok tss →
  allocated (memory σ) (concat tss) = true →
  preserves_tracks kernel →
  ∃ σ1 σ2 new,
    traverse omp e this kernel σ = Ok σ1 ∧
    traverse omp e this kernel σ1 = Ok σ2 ∧
    trace σ1 = trace σ ++ new ∧
    trace σ2 = trace σ1 ++ new.
Proof.
  intros Hmode Htss Hmem Hk.
  destruct (visits_result_preserved this kernel (concat tss) σ Hk Hmem)
    as [Hm Hev].
  set (σ1 := visits_result this kernel (concat tss) σ) in *.
  assert (allocated (memory σ1) (concat tss) = true) as Hmem1
    by by rewrite Hm.
  destruct (visits_result_preserved this kernel (concat tss) σ1 Hk Hmem1)
    as [_ Hev1].
  exists σ1, (visits_result this kernel (concat tss) σ1),
         (visits_events this kernel (concat tss) σ).
  split; [by apply traverse_Ok|]. split; [by apply traverse_Ok|].
  split; [apply trace_visits_result|].
  by rewrite trace_visits_result, Hev1, Hev, Hm.
Qed.

(** X7.  The hook is run on the hook calls of the trace, in their order,
    and on nothing else: the state of the solver stage after a traversal
    is its state before, taken through these calls.  With the hook of the
    class itself, which does nothing, that state is the one before. *)
Theorem hook_state_after_traversal e this kernel σ tss :
  _segment_formation this = EXPLICIT_2D →
  traversal_order omp e (_track_generator this) = Ok tss →
  allocated (memory σ) (concat tss) = true →
  ∃ σ' new,
    traverse omp e this kernel σ = Ok σ' ∧
    trace σ' = trace σ ++ new ∧
    hook_state σ' = replay_hook this new (hook_state σ) ∧
    (onTrack this = onTrack_default → hook_state σ' = hook_state σ).
Proof.
  intros Hmode Htss Hmem.
  exists (visits_result this kernel (concat tss) σ),
         (visits_events this kernel (concat tss) σ).
  split; [by apply traverse_Ok|]. split; [apply trace_visits_result|].
  rewrite hook_state_visits_result. split; [done|].
  intros Hdefault. unfold replay_hook. rewrite Hdefault.
  generalize (hook_state σ).
  induction (visits_events this kernel (concat tss) σ) as [|ev evs IH];
    intros h; simpl; [done|].
  rewrite IH. by destruct ev.
Qed.

Lemma length_kernel_visits t tr :
  length (kernel_visits (Some t) tr) = count_events is_EvExecute tr.
Proof.
  unfold count_events. revert t.
  induction tr as [|ev tr IH]; intros t; [done|].
  destruct ev; cbn [kernel_visits];
    rewrite ?filter_cons_True, ?filter_cons_False by done;
    rewrite ?length_app; simpl; by rewrite IH.
Qed.

(** X8.  With a kernel, whatever it regenerates, the kernel consumes the
    very segments the hook is handed afterwards: the (track, segment) pairs
    of the [execute] calls are those of the hook calls, in the same order,
    and there are as many [execute] calls as segments handed to the
    hook. *)
Theorem kernel_consumes_what_hook_receives e this (k : MOCKernel K) σ tss :
  _segment_formation this = EXPLICIT_2D →
  traversal_order omp e (_track_generator this) = Ok tss →
  allocated (memory σ) (concat tss) = true →
  ∃ σ' new,
    traverse omp e this (Some k) σ = Ok σ' ∧
    trace σ' = trace σ ++ new ∧
    kernel_visits None new = hook_visits new ∧
    count_events is_EvExecute new = length (hook_visits new).
Proof.
  intros Hmode Htss Hmem.
  exists (visits_result this (Some k) (concat tss) σ),
         (visits_events this (Some k) (concat tss) σ).
  split; [by apply traverse_Ok|]. split; [apply trace_visits_result|].
  split; [apply kernel_visits_is_hook_visits|].
  rewrite <- (length_kernel_visits 0).
  by rewrite kernel_visits_is_hook_visits.
Qed.

End More.

Lemma group_sizes_nonneg tg (groups : list Z) :
  Forall (λ i, 0 ≤ getNumTracksByParallelGroup tg i) groups →
  0 ≤ foldr (λ i acc, getNumTracksByParallelGroup tg i + acc) 0 groups.
Proof. induction 1; simpl; lia. Qed.

(** The ranges of the parallel groups lie one behind the other in the flat
    array, from [max_track] on. *)
Lemma group_ranges_slice omp tg (groups : list Z) :
  (∀ n l, share_out omp guided n l = l) →
  ∀ max_track ranges tss,
  0 ≤ max_track →
  Forall (λ i, 0 ≤ getNumTracksByParallelGroup tg i) groups →
  group_ranges tg groups max_track = Ok ranges →
  mapM (tracks_of_range omp tg) ranges = Ok tss →
  concat tss
  = take (Z.to_nat (foldr (λ i acc, getNumTracksByParallelGroup tg i + acc)
                      0 groups))
      (drop (Z.to_nat max_track) (getTracksByParallelGroup tg)).
Proof.
  intros Hid.
  induction groups as [|i groups IH]; intros max_track ranges tss Hmax Hsizes;
    cbn [group_ranges foldr].
  - intros [= <-] [= <-]. done.
  - apply Forall_cons in Hsizes as [Hi Hsizes].
    destruct (int_add _ _) as [max_track'|] eqn:Hadd;
      cbn [mbind result_bind]; [|done].
    apply int_add_Ok in Hadd as ->.
    destruct (group_ranges tg groups _) as [rest|] eqn:Hrest;
      cbn [mbind result_bind]; [|done].
    intros [= <-] (g & tss' & Hg & Htss' & ->)%mapM_cons_Ok.
    unfold tracks_of_range in Hg. cbn [fst snd] in Hg. rewrite Hid in Hg.
    apply mapM_index_seqZ in Hg; [|done]. cbn [concat].
    rewrite (IH (max_track + getNumTracksByParallelGroup tg i) rest tss'
               ltac:(lia) Hsizes Hrest Htss'), Hg.
    pose proof (group_sizes_nonneg _ _ Hsizes).
    replace (max_track + getNumTracksByParallelGroup tg i - max_track)
      with (getNumTracksByParallelGroup tg i) by lia.
    rewrite !Z2Nat.inj_add by lia.
    rewrite <- drop_drop. apply take_take_drop.
Qed.

Lemma tracks_by_group_prefix omp tg tss :
  (∀ n l, share_out omp guided n l = l) →
  (∀ i, 0 ≤ i < getNumParallelTrackGroups tg →
        0 ≤ getNumTracksByParallelGroup tg i) →
  tracks_by_group omp tg = Ok tss →
  concat tss
  = take (Z.to_nat (group_total tg)) (getTracksByParallelGroup tg).
Proof.
  intros Hid Hsizes Htss.
  assert (Forall (λ i, 0 ≤ getNumTracksByParallelGroup tg i)
            (seqZ 0 (getNumParallelTrackGroups tg)))
    as Hall by (apply Forall_seqZ; intros i ?; apply Hsizes; lia).
  unfold tracks_by_group in Htss.
  destruct (group_ranges _ _ 0) as [ranges|] eqn:Hranges;
    cbn [mbind result_bind] in Htss; [|done].
  pose proof (group_ranges_slice _ _ _ Hid _ _ _ (Z.le_refl 0) Hall
                Hranges Htss) as Hconcat.
  change (Z.to_nat 0) with 0%nat in Hconcat. by rewrite drop_0 in Hconcat.
Qed.

(** Every parallel group has as many Tracks as its size. *)
Lemma group_ranges_length omp tg (groups : list Z) :
  ∀ max_track ranges tss,
  Forall (λ i, 0 ≤ getNumTracksByParallelGroup tg i) groups →
  group_ranges tg groups max_track = Ok ranges →
  mapM (tracks_of_range omp tg) ranges = Ok tss →
  length (concat tss)
  = Z.to_nat (foldr (λ i acc, getNumTracksByParallelGroup tg i + acc)
                0 groups).
Proof.
  induction groups as [|i groups IH]; intros max_track ranges tss Hall;
    cbn [group_ranges foldr].
  - intros [= <-] [= <-]. done.
  - apply Forall_cons in Hall as [Hi Hall].
    destruct (int_add _ _) as [max_track'|] eqn:Hadd;
      cbn [mbind result_bind]; [|done].
    apply int_add_Ok in Hadd as ->.
    destruct (group_ranges _ groups _) as [rest|] eqn:Hrest;
      cbn [mbind result_bind]; [|done].
    intros [= <-] (g & tss' & Hg & Htss' & ->)%mapM_cons_Ok.
    unfold tracks_of_range in Hg. cbn [fst snd] in Hg.
    apply mapM_Ok_length in Hg.
    rewrite (Permutation_length (share_out_Permutation omp _ _ _)) in Hg.
    rewrite length_seqZ in Hg.
    cbn [concat]. rewrite length_app, Hg, (IH _ _ _ Hall Hrest Htss').
    pose proof (group_sizes_nonneg _ _ Hall). lia.
Qed.

Lemma concat_slices {A} (tss slices : list (list A)) :
  Forall2 (≡ₚ) tss slices → concat tss ≡ₚ concat slices.
Proof.
  induction 1 as [|ts sl tss slices Hts _ IH]; simpl; [done|].
  by rewrite Hts, IH.
Qed.

(** X9.  When no parallel group has a negative size,
    [loopOverTracksByParallelGroup] walks the flat array from its first
    entry on over as many entries as the groups hold together, under every
    schedule: between two groups no entry is skipped and none is read
    twice.  When the worksharing loop runs its iterations in index order,
    the entries are walked entry by entry. *)
Theorem parallel_groups_walk_a_prefix {K H} (omp : schedule)
    (this : TraverseTracks H) (kernel : option (MOCKernel K))
    (σ : state K H) tss :
  _segment_formation this = EXPLICIT_2D →
  tracks_by_group omp (_track_generator this) = Ok tss →
  allocated (memory σ) (concat tss) = true →
  (∀ i, 0 ≤ i < getNumParallelTrackGroups (_track_generator this) →
        0 ≤ getNumTracksByParallelGroup (_track_generator this) i) →
  ∃ σ' new,
    loopOverTracksByParallelGroup omp this kernel σ = Ok σ' ∧
    trace σ' = trace σ ++ new ∧
    hook_calls new
    ≡ₚ take (Z.to_nat (group_total (_track_generator this)))
         (getTracksByParallelGroup (_track_generator this)) ∧
    length (hook_calls new) = Z.to_nat (group_total (_track_generator this)) ∧
    ((∀ n l, share_out omp guided n l = l) →
     hook_calls new
     = take (Z.to_nat (group_total (_track_generator this)))
         (getTracksByParallelGroup (_track_generator this))).
Proof.
  intros Hmode Htss Hmem Hsizes.
  exists (visits_result this kernel (concat tss) σ),
         (visits_events this kernel (concat tss) σ).
  split; [by apply loopOverTracksByParallelGroup_Ok|].
  split; [apply trace_visits_result|].
  rewrite hook_calls_visits_events.
  destruct (tracks_by_group_slices _ _ _ Htss) as (slices & Hslices & Hperm).
  apply concat_slices in Hperm.
  rewrite (tracks_by_group_prefix one_thread _ slices) in Hperm by done.
  split; [exact Hperm|]. split.
  - assert (Forall (λ i, 0 ≤ getNumTracksByParallelGroup
                              (_track_generator this) i)
              (seqZ 0 (getNumParallelTrackGroups (_track_generator this))))
      as Hall by (apply Forall_seqZ; intros i ?; apply Hsizes; lia).
    unfold tracks_by_group in Htss.
    destruct (group_ranges _ _ 0) as [ranges|] eqn:Hranges;
      cbn [mbind result_bind] in Htss; [|done].
    unfold group_total. by eapply group_ranges_length.
  - intros Hid. by apply (tracks_by_group_prefix omp).
Qed.

(** ** The further properties at work on the small Track Stores *)

Lemma traceSegmentsExplicit_null_kernel_cases_witness :
  traceSegmentsExplicit 2 (None : option (MOCKernel unit)) (start tt)
    = Ok (start tt) ∧
  traceSegmentsExplicit 5 (None : option (MOCKernel unit)) (start tt)
    = Err NullKernel.
Proof.
  split.
  - apply (traceSegmentsExplicit_null_kernel_cases 2 (mk_Track []) (start tt));
      reflexivity.
  - apply (traceSegmentsExplicit_null_kernel_cases 5
             (mk_Track [seg_a; seg_c; seg_b]) (start tt));
      [reflexivity|discriminate].
Defined.

Lemma nothing_to_walk_witness :
  loopOverTracks2D one_thread engine_empty (Some noop_kernel) (start tt) = Ok (start tt) ∧
  loopOverTracksByParallelGroup2D one_thread engine_empty (Some noop_kernel) (start tt)
    = Ok (start tt).
Proof.
  split.
  - apply (nothing_to_walk one_thread engine_empty (Some noop_kernel) (start tt)).
    simpl. lia.
  - apply (nothing_to_walk one_thread engine_empty (Some noop_kernel) (start tt)).
    simpl. lia.
Defined.

Lemma traversal_frame_witness :
  ∃ σ',
    traverse one_thread TraverseAll engine_pair (Some reversing_kernel) (start 0%nat)
      = Ok σ' ∧
    dom (memory σ') = dom nine_tracks ∧
    memory σ' !! 5 = Some (mk_Track [seg_a; seg_c; seg_b]).
Proof.
  destruct (traversal_frame one_thread TraverseAll engine_pair (Some reversing_kernel)
              (start 0%nat) [[1; 3]])
    as (σ' & Hrun & Hdom & Hframe).
  - reflexivity.
  - reflexivity.
  - vm_compute. reflexivity.
  - exists σ'. split; [exact Hrun|]. split; [exact Hdom|].
    rewrite Hframe; [reflexivity|].
    apply (bool_decide_unpack _). vm_compute. exact I.
Defined.


Lemma traversal_repeats_witness :
  ∃ σ1 σ2 new,
    traverse one_thread TraverseAll engine_pair (Some tally_kernel) (start 0%nat)
      = Ok σ1 ∧
    traverse one_thread TraverseAll engine_pair (Some tally_kernel) σ1 = Ok σ2 ∧
    trace σ1 = new ∧
    trace σ2 = trace σ1 ++ new.
Proof.
  apply (traversal_repeats one_thread TraverseAll engine_pair (Some tally_kernel)
           (start 0%nat) [[1; 3]]).
  - reflexivity.
  - reflexivity.
  - vm_compute. reflexivity.
  - intros t T ks. reflexivity.
Defined.

Lemma hook_state_after_traversal_witness :
  ∃ σ',
    traverse one_thread TraverseAll engine_base (Some tally_kernel) (start 0%nat)
      = Ok σ' ∧
    hook_state σ' = 0%nat.
Proof.
  destruct (hook_state_after_traversal one_thread TraverseAll engine_base
              (Some tally_kernel) (start 0%nat) [[1; 2; 3]; [4; 5; 6]])
    as (σ' & new & Hrun & _ & _ & Hdefault).
  - reflexivity.
  - reflexivity.
  - vm_compute. reflexivity.
  - exists σ'. split; [exact Hrun|]. by apply Hdefault.
Defined.

Lemma kernel_consumes_what_hook_receives_witness :
  ∃ σ' new,
    traverse one_thread TraverseByParallelGroup engine_2x3 (Some reversing_kernel)
      (start 0%nat) = Ok σ' ∧
    trace σ' = new ∧
    kernel_visits None new = hook_visits new ∧
    count_events is_EvExecute new = length (hook_visits new).
Proof.
  apply (kernel_consumes_what_hook_receives one_thread TraverseByParallelGroup engine_2x3
           reversing_kernel (start 0%nat) [[1; 4; 2]; [5; 3; 6]]).
  - reflexivity.
  - reflexivity.
  - vm_compute. reflexivity.
Defined.

Lemma parallel_groups_walk_a_prefix_witness :
  ∃ σ' new,
    loopOverTracksByParallelGroup one_thread engine_4_5 (Some noop_kernel)
      (start tt) = Ok σ' ∧
    trace σ' = new ∧
    hook_calls new = [1; 3; 5; 7; 2; 4; 6; 8; 9] ∧
    length (hook_calls new) = 9%nat.
Proof.
  destruct (parallel_groups_walk_a_prefix one_thread engine_4_5
              (Some noop_kernel) (start tt) [[1; 3; 5; 7]; [2; 4; 6; 8; 9]])
    as (σ' & new & Hrun & Htrace & _ & Hlength & Hprefix).
  - reflexivity.
  - reflexivity.
  - vm_compute. reflexivity.
  - intros i _. simpl. destruct (i =? 0); lia.
  - exists σ', new. split; [exact Hrun|]. split; [exact Htrace|].
    split; [|exact Hlength]. by apply Hprefix.
Defined.
